(** * mutate.js: section parsing, patch application, validation, versioning

    A shallow embedding of [mutate.js] and the properties of its pipeline:
    [parseIntoSections], [applySectionChanges], [getCurrentVersion],
    [updateVersionString], [validate] and the orchestrator [main].

    JavaScript strings are sequences of UTF-16 code units; they are
    modelled as lists of code units, so that the list library applies to
    them.  File-system state is a finite map from paths to contents. *)

From Stdlib Require Import ZArith NArith String Ascii DecimalString.
From stdpp Require Import base option list gmap.

Local Open Scope N_scope.

(** ** Strings *)

Definition char16 : Type := N.
Definition jsstring : Type := list char16.

(** A source literal (ASCII only) as a JavaScript string. *)
Definition lit (s : string) : jsstring :=
  map N_of_ascii (list_ascii_of_string s).
Arguments lit s%_string.

Definition char_eqb (a b : char16) : bool := N.eqb a b.

(** [WhiteSpace] and [LineTerminator] code units: the class [\s] of a
    regular expression, which is also what [String.prototype.trim] strips. *)
Definition is_space (c : char16) : bool :=
  ((9 <=? c) && (c <=? 13)) || (c =? 32) || (c =? 160) || (c =? 5760)
  || ((8192 <=? c) && (c <=? 8202)) || (c =? 8232) || (c =? 8233)
  || (c =? 8239) || (c =? 8287) || (c =? 12288) || (c =? 65279).

(** Line terminators: what [.] refuses to match. *)
Definition is_line_terminator (c : char16) : bool :=
  (c =? 10) || (c =? 13) || (c =? 8232) || (c =? 8233).

(** [\d] *)
Definition is_digit (c : char16) : bool := (48 <=? c) && (c <=? 57).

(** [[\d.]] *)
Definition is_digit_or_dot (c : char16) : bool := is_digit c || (c =? 46).

Definition NL : char16 := 10.

(** Longest prefix whose code units satisfy [p], and the rest. *)
Fixpoint span (p : char16 -> bool) (s : jsstring) : jsstring * jsstring :=
  match s with
  | [] => ([], [])
  | c :: s' =>
      if p c then let '(a, b) := span p s' in (c :: a, b) else ([], s)
  end.

Definition skip_while (p : char16 -> bool) (s : jsstring) : jsstring :=
  snd (span p s).

(** [s] without the literal prefix [p], when it starts with it. *)
Fixpoint strip_prefix (p s : jsstring) : option jsstring :=
  match p, s with
  | [], _ => Some s
  | _ :: _, [] => None
  | a :: p', b :: s' => if char_eqb a b then strip_prefix p' s' else None
  end.

Definition starts_with (p s : jsstring) : bool :=
  match strip_prefix p s with Some _ => true | None => false end.

(** [s.includes(sub)] *)
Fixpoint includes (s sub : jsstring) : bool :=
  starts_with sub s
  || match s with [] => false | _ :: s' => includes s' sub end.

(** [s.trim()] *)
Definition trim (s : jsstring) : jsstring :=
  reverse (skip_while is_space (reverse (skip_while is_space s))).

Definition string_eqb (a b : jsstring) : bool := bool_decide (a = b).

(** [s.split('\n')]: never empty, [''.split('\n')] is [['']]. *)
Fixpoint split_nl (s : jsstring) : list jsstring :=
  match s with
  | [] => [[]]
  | c :: s' =>
      if char_eqb c NL then [] :: split_nl s'
      else match split_nl s' with
           | l :: ls => (c :: l) :: ls
           | [] => [[c]]
           end
  end.

(** [lines.join('\n')] *)
Fixpoint join_nl (ls : list jsstring) : jsstring :=
  match ls with
  | [] => []
  | [l] => l
  | l :: ls' => l ++ NL :: join_nl ls'
  end.

(** ** The section table *)

(** [SECTION_MAP]: the own properties of the object literal, in insertion
    order (the order [Object.keys] and [Object.values] enumerate). *)
Definition SECTION_MAP : list (jsstring * jsstring) :=
  [ (lit "CONFIG",             lit "CONFIG");
    (lit "SKETCH_HELPERS",     lit "SKETCH HELPERS");
    (lit "CANVAS",             lit "CANVAS");
    (lit "STATE",              lit "STATE");
    (lit "INPUT",              lit "INPUT");
    (lit "UPGRADES",           lit "UPGRADES");
    (lit "PLAYER_UPDATE",      lit "PLAYER UPDATE");
    (lit "ENEMIES",            lit "ENEMIES");
    (lit "PROJECTILES",        lit "PROJECTILES");
    (lit "KILL_XP",            lit "KILL / XP");
    (lit "PARTICLES",          lit "PARTICLES");
    (lit "DRAW",               lit "DRAW");
    (lit "HUD",                lit "HUD");
    (lit "GAME_OVER",          lit "GAME OVER");
    (lit "AUDIO",              lit "AUDIO");
    (lit "DEXSCREENER_GROWTH", lit "DEXSCREENER + GROWTH SYSTEM");
    (lit "GAME_LOOP",          lit "GAME LOOP");
    (lit "START_RESTART",      lit "START / RESTART");
    (lit "INIT",               lit "INIT") ].

Definition Object_keys (o : list (jsstring * jsstring)) : list jsstring := o.*1.
Definition Object_values (o : list (jsstring * jsstring)) : list jsstring := o.*2.

(** [SECTION_MAP] is an ordinary object literal: its prototype is
    [Object.prototype], whose members a property read also finds. *)
Definition Object_prototype_names : list jsstring :=
  [ lit "constructor"; lit "__defineGetter__"; lit "__defineSetter__";
    lit "hasOwnProperty"; lit "__lookupGetter__"; lit "__lookupSetter__";
    lit "isPrototypeOf"; lit "propertyIsEnumerable"; lit "toString";
    lit "valueOf"; lit "__proto__"; lit "toLocaleString" ].

(** The values a property read [SECTION_MAP[key]] can produce. *)
Inductive jsval : Type :=
  | JUndefined
  | JString (s : jsstring)
  | JInherited (name : jsstring).   (* a function or object of Object.prototype *)

#[global] Instance jsval_eq_dec : EqDecision jsval.
Proof. solve_decision. Defined.

Fixpoint own_property (o : list (jsstring * jsstring)) (key : jsstring)
  : option jsstring :=
  match o with
  | [] => None
  | (k, v) :: o' => if string_eqb k key then Some v else own_property o' key
  end.

(** [o[key]] *)
Definition get_property (o : list (jsstring * jsstring)) (key : jsstring) : jsval :=
  match own_property o key with
  | Some v => JString v
  | None =>
      if bool_decide (key ∈ Object_prototype_names) then JInherited key
      else JUndefined
  end.

(** [ToBoolean]: [undefined] and the empty string are falsy. *)
Definition truthy (v : jsval) : bool :=
  match v with
  | JUndefined => false
  | JString s => negb (string_eqb s [])
  | JInherited _ => true
  end.

(** ** The banner pattern *)

(** The tail [ =+\s*$] of the banner pattern: a space, a maximal run of
    at least one [=], then only white space up to the end of the line. *)
Definition banner_tail (s : jsstring) : bool :=
  match strip_prefix (lit " ") s with
  | None => false
  | Some s1 =>
      let '(eqs, s2) := span (char_eqb 61) s1 in
      negb (string_eqb eqs []) && string_eqb (skip_while is_space s2) []
  end.

(** The lazy group [(.+?)] followed by the tail: the shortest non-empty
    run of non-terminator code units after which the tail matches. *)
Fixpoint lazy_name (s : jsstring) : option jsstring :=
  match s with
  | [] => None
  | c :: s' =>
      if is_line_terminator c then None
      else if banner_tail s' then Some [c]
      else (c ::.) <$> lazy_name s'
  end.

(** [line.match(SECTION_BANNER_RE)], reduced to its first group.
    [SECTION_BANNER_RE] is [/^\s*\/\/ =+ (.+?) =+\s*$/]: every greedy
    run is followed by a code unit outside its class, so the only
    backtracking is the growth of the lazy group. *)
Definition SECTION_BANNER_RE (line : jsstring) : option jsstring :=
  s1 ← strip_prefix (lit "// ") (skip_while is_space line);
  let '(eqs, s2) := span (char_eqb 61) s1 in
  if string_eqb eqs [] then None
  else s3 ← strip_prefix (lit " ") s2; lazy_name s3.

(** ** Section parser *)

Record DocSection : Type := mkSection {
  bannerLine : jsstring;
  bannerName : jsstring;
  bodyLines  : list jsstring;
}.

#[global] Instance DocSection_eq_dec : EqDecision DocSection.
Proof. solve_decision. Defined.

Record Parsed : Type := mkParsed {
  preScriptLines  : list jsstring;
  sections        : list DocSection;
  postScriptLines : list jsstring;
}.

(** The local variables of [parseIntoSections] that the loop updates. *)
Record ParseState : Type := mkParseState {
  st_sections       : list DocSection;
  st_currentSection : option DocSection;
  st_preScriptLines : list jsstring;
  st_postScriptLines: list jsstring;
  st_inPreamble     : bool;
}.

Definition push {A} (l : list A) (x : A) : list A := l ++ [x].

Definition push_current (st : ParseState) : list DocSection :=
  match st_currentSection st with
  | Some cur => push (st_sections st) cur
  | None => st_sections st
  end.

(** The [for] loop over [lines], from index [i] on ([lines] is
    [lines.slice(i)]); the [break] ends the recursion. *)
Fixpoint parse_loop (lines : list jsstring) (st : ParseState) : ParseState :=
  match lines with
  | [] => st
  | line :: rest =>
      match SECTION_BANNER_RE line with
      | Some name =>
          parse_loop rest
            {| st_sections := push_current st;
               st_currentSection := Some (mkSection line name []);
               st_preScriptLines := st_preScriptLines st;
               st_postScriptLines := st_postScriptLines st;
               st_inPreamble := false |}
      | None =>
          match st_currentSection st with
          | Some cur =>
              if string_eqb (trim line) (lit "</script>") then
                {| st_sections := push (st_sections st) cur;
                   st_currentSection := None;
                   st_preScriptLines := st_preScriptLines st;
                   st_postScriptLines := line :: rest;
                   st_inPreamble := st_inPreamble st |}
              else
                parse_loop rest
                  {| st_sections := st_sections st;
                     st_currentSection :=
                       Some (mkSection (bannerLine cur) (bannerName cur)
                                       (push (bodyLines cur) line));
                     st_preScriptLines := st_preScriptLines st;
                     st_postScriptLines := st_postScriptLines st;
                     st_inPreamble := st_inPreamble st |}
          | None =>
              if st_inPreamble st then
                parse_loop rest
                  {| st_sections := st_sections st;
                     st_currentSection := None;
                     st_preScriptLines := push (st_preScriptLines st) line;
                     st_postScriptLines := st_postScriptLines st;
                     st_inPreamble := true |}
              else parse_loop rest st
          end
      end
  end.

Definition parse_init : ParseState :=
  {| st_sections := []; st_currentSection := None;
     st_preScriptLines := []; st_postScriptLines := [];
     st_inPreamble := true |}.

Definition parseIntoSections (html : jsstring) : Parsed :=
  let st := parse_loop (split_nl html) parse_init in
  {| preScriptLines := st_preScriptLines st;
     sections := push_current st;
     postScriptLines := st_postScriptLines st |}.

(** ** Section applier *)

Record Change : Type := mkChange {
  sectionName : jsstring;
  content     : jsstring;
}.

(** The two [Error]s [applySectionChanges] throws, with the value
    interpolated into the message. *)
Inductive ApplyError : Type :=
  | UnknownSectionName (name : jsstring)      (* `Unknown section name: ${name}` *)
  | SectionNotFound (banner : jsval).         (* `Section not found in index.html: "${banner}"` *)

Inductive result (E A : Type) : Type :=
  | Ok (a : A)
  | Err (e : E).
Arguments Ok {E A} a.
Arguments Err {E A} e.

(** [s.bannerName === bannerName] *)
Definition names (v : jsval) (s : DocSection) : Prop := JString (bannerName s) = v.

#[global] Instance names_dec v s : Decision (names v s).
Proof. unfold names. apply _. Defined.

(** One iteration of the loop over [sectionChanges]: [find] returns the
    first section of that name, whose [bodyLines] field is then assigned. *)
Definition apply_change (secs : list DocSection) (change : Change)
  : result ApplyError (list DocSection) :=
  let banner := get_property SECTION_MAP (sectionName change) in
  if negb (truthy banner) then Err (UnknownSectionName (sectionName change))
  else
    match list_find (names banner) secs with
    | None => Err (SectionNotFound banner)
    | Some (i, section) =>
        Ok (<[ i := mkSection (bannerLine section) (bannerName section)
                              (split_nl (content change)) ]> secs)
    end.

Fixpoint apply_changes (secs : list DocSection) (changes : list Change)
  : result ApplyError (list DocSection) :=
  match changes with
  | [] => Ok secs
  | change :: changes' =>
      match apply_change secs change with
      | Err e => Err e
      | Ok secs' => apply_changes secs' changes'
      end
  end.

(** [sections.flatMap((s) => [s.bannerLine, ...s.bodyLines])] *)
Definition section_lines (s : DocSection) : list jsstring :=
  bannerLine s :: bodyLines s.

Definition allLines (pre : list jsstring) (secs : list DocSection)
  (post : list jsstring) : list jsstring :=
  pre ++ (secs ≫= section_lines) ++ post.

Definition applySectionChanges (html : jsstring) (sectionChanges : list Change)
  : result ApplyError jsstring :=
  let parsed := parseIntoSections html in
  match apply_changes (sections parsed) sectionChanges with
  | Err e => Err e
  | Ok secs =>
      Ok (join_nl (allLines (preScriptLines parsed) secs (postScriptLines parsed)))
  end.

(** ** Version helpers *)

Definition VERSION_PREFIX : jsstring := lit "Arena Survivor v".

(** [/Arena Survivor v(\d+\.\d+)/] anchored at the start of [s]: its first
    group.  Both digit runs are greedy and each is followed by a code
    unit outside [\d], so neither can give code units back. *)
Definition version_at (s : jsstring) : option jsstring :=
  s1 ← strip_prefix VERSION_PREFIX s;
  let '(major, s2) := span is_digit s1 in
  if string_eqb major [] then None
  else
    s3 ← strip_prefix (lit ".") s2;
    let '(minor, _) := span is_digit s3 in
    if string_eqb minor [] then None else Some (major ++ lit "." ++ minor).

(** The leftmost position at which the pattern matches. *)
Fixpoint first_version (s : jsstring) : option jsstring :=
  match version_at s with
  | Some v => Some v
  | None => match s with [] => None | _ :: s' => first_version s' end
  end.

Definition getCurrentVersion (html : jsstring) : jsstring :=
  match first_version html with
  | Some v => v
  | None => lit "0.00"
  end.

(** [/Arena Survivor v[\d.]+/] anchored at the start of [s]: the text it
    matches, the prefix and the longest run of digits and dots. *)
Definition token_at (s : jsstring) : option jsstring :=
  s1 ← strip_prefix VERSION_PREFIX s;
  let '(run, _) := span is_digit_or_dot s1 in
  if string_eqb run [] then None else Some (VERSION_PREFIX ++ run).

Definition DOLLAR : char16 := 36.

(** [GetSubstitution] for a pattern without groups: in the replacement
    text [$$] is a dollar sign, [$&] the matched text, [$`] the text
    before the match and [$'] the text after it; a [$] before anything
    else (a digit included, as there is no group) stands for itself. *)
Fixpoint GetSubstitution (matched before after replacement : jsstring) : jsstring :=
  match replacement with
  | [] => []
  | c :: r =>
      if char_eqb c DOLLAR then
        match r with
        | [] => [DOLLAR]
        | d :: r' =>
            if char_eqb d DOLLAR then DOLLAR :: GetSubstitution matched before after r'
            else if char_eqb d 38 then matched ++ GetSubstitution matched before after r'
            else if char_eqb d 96 then before ++ GetSubstitution matched before after r'
            else if char_eqb d 39 then after ++ GetSubstitution matched before after r'
            else DOLLAR :: GetSubstitution matched before after r
        end
      else c :: GetSubstitution matched before after r
  end.

(** [s.replace(/Arena Survivor v[\d.]+/g, replacement)], scanning [s] from
    left to right: [before] is the text already passed and [skip] the
    number of code units left of the match being stepped over. *)
Fixpoint replace_tokens (replacement before : jsstring) (skip : nat) (s : jsstring)
  : jsstring :=
  match s with
  | [] => []
  | c :: s' =>
      match skip with
      | S k => replace_tokens replacement (before ++ [c]) k s'
      | O =>
          match token_at s with
          | Some matched =>
              GetSubstitution matched before (drop (length matched) s) replacement
              ++ replace_tokens replacement (before ++ [c]) (length matched - 1) s'
          | None => c :: replace_tokens replacement (before ++ [c]) 0 s'
          end
      end
  end.

Definition updateVersionString (html newVersion : jsstring) : jsstring :=
  replace_tokens (VERSION_PREFIX ++ newVersion) [] 0 html.

(** ** Validation *)

Definition QUOTE : char16 := 34.

(** [String(n)] for an integer. *)
Definition string_of_Z (z : Z) : jsstring :=
  lit (NilZero.string_of_int (Z.to_int z)).

Definition msg_missing_script : jsstring := lit "Missing </script> tag".
Definition msg_missing_html : jsstring := lit "Missing </html> tag".
Definition msg_missing_banner (bannerName : jsstring) : jsstring :=
  lit "Missing section banner: " ++ QUOTE :: bannerName ++ [QUOTE].
Definition msg_too_large (lineCount : nat) : jsstring :=
  lit "File too large: " ++ string_of_Z (Z.of_nat lineCount) ++ lit " lines (max 4000)".
Definition msg_braces (braces : Z) : jsstring :=
  lit "Brace imbalance in <script>: "
  ++ (if (0 <? braces)%Z then lit "+" else []) ++ string_of_Z braces.

(** The lazy group [([\s\S]*?)] followed by [<\/script>]. *)
Fixpoint until_close (s : jsstring) : option jsstring :=
  if starts_with (lit "</script>") s then Some []
  else match s with
       | [] => None
       | c :: s' => (c ::.) <$> until_close s'
       end.

(** [html.match(/<script>([\s\S]*?)<\/script>/)], reduced to its group. *)
Fixpoint script_match (s : jsstring) : option jsstring :=
  match strip_prefix (lit "<script>") s ≫= until_close with
  | Some js => Some js
  | None => match s with [] => None | _ :: s' => script_match s' end
  end.

(** The loop over the characters of the script: a brace is one code
    unit, so counting by code unit or by code point is the same. *)
Definition count_braces (js : jsstring) : Z :=
  foldl (fun braces ch =>
           let braces := if char_eqb ch 123 then (braces + 1)%Z else braces in
           if char_eqb ch 125 then (braces - 1)%Z else braces) 0%Z js.

Definition MAX_LINES : nat := 4000.

Definition validate (html : jsstring) : list jsstring :=
  let errors := [] in
  let errors :=
    if negb (includes html (lit "</script>")) then push errors msg_missing_script
    else errors in
  let errors :=
    if negb (includes html (lit "</html>")) then push errors msg_missing_html
    else errors in
  let errors :=
    foldl (fun errors bannerName =>
             if negb (includes html bannerName)
             then push errors (msg_missing_banner bannerName) else errors)
          errors (Object_values SECTION_MAP) in
  let lineCount := length (split_nl html) in
  let errors :=
    if bool_decide (MAX_LINES < lineCount)%nat then push errors (msg_too_large lineCount)
    else errors in
  let errors :=
    match script_match html with
    | Some js =>
        let braces := count_braces js in
        if bool_decide (braces ≠ 0%Z) then push errors (msg_braces braces) else errors
    | None => errors
    end in
  errors.

(** ** The orchestrator *)

(** The input of the [apply_mutation] tool. *)
Record Mutation : Type := mkMutation {
  versionNumber  : jsstring;
  versionType    : jsstring;
  summary        : jsstring;
  changelog      : jsstring;
  sectionChanges : list Change;
  referenceDoc   : jsstring;
}.

Inductive Block : Type :=
  | TextBlock (text : jsstring)
  | ToolUse (input : Mutation).

Record Request : Type := mkRequest {
  req_model  : jsstring;
  req_system : jsstring;
  req_user   : jsstring;
}.

(** What [client.messages.create] does: it rejects, or resolves to the
    content blocks of the response. *)
Inductive ApiOutcome : Type :=
  | ApiRejects
  | ApiResolves (response_content : list Block).

Inductive FsOp : Type :=
  | CopyFile (src dst : jsstring)
  | WriteFile (path data : jsstring)
  | Unlink (path : jsstring).

(** The effects of a run, in the order they happen; [ok] tells whether
    the call returned or threw.  [EExec] is a call of [execSync]: it holds
    the command line as the program hands it to the shell.  Console output
    other than the validation report is not recorded. *)
Inductive Event : Type :=
  | EFs (op : FsOp) (ok : bool)
  | EApiCall (req : Request)
  | EValidationErrors (errors : list jsstring)
  | EExec (command : jsstring) (ok : bool).

(** Everything a run depends on besides the files: the command line, the
    environment variables, the behaviour of the service, and which
    file-system calls and which shell commands fail. *)
Record Env : Type := mkEnv {
  DRY_RUN           : bool;
  ROOT              : jsstring;
  ANTHROPIC_API_KEY : option jsstring;
  MUTATE_MODEL      : option jsstring;
  messages_create   : Request -> ApiOutcome;
  io_fails          : FsOp -> bool;
  exec_fails        : jsstring -> bool;
}.

Record World : Type := mkWorld {
  fs    : gmap jsstring jsstring;
  trace : list Event;
}.

(** A computation ends normally, by [process.exit(code)], or by an
    exception. *)
Inductive outcome (A : Type) : Type :=
  | Return (a : A)
  | Exited (code : Z)
  | Thrown.
Arguments Return {A} a.
Arguments Exited {A} code.
Arguments Thrown {A}.

Definition M (A : Type) : Type := World -> outcome A * World.

Definition ret {A} (a : A) : M A := fun w => (Return a, w).

Definition bind {A B} (m : M A) (k : A -> M B) : M B :=
  fun w =>
    match m w with
    | (Return a, w') => k a w'
    | (Exited c, w') => (Exited c, w')
    | (Thrown, w') => (Thrown, w')
    end.

#[global] Instance M_ret : MRet M := @ret.
#[global] Instance M_bind : MBind M := fun A B k m => bind m k.

Notation "'let*' x := m 'in' k" := (bind m (fun x => k))
  (at level 10, x name, m at level 100, k at level 200).

Definition process_exit {A} (code : Z) : M A := fun w => (Exited code, w).

(** [try { m } catch (err) { handler }] *)
Definition try_catch {A} (m : M A) (handler : M A) : M A :=
  fun w =>
    match m w with
    | (Thrown, w') => handler w'
    | r => r
    end.

Definition when (b : bool) (m : M unit) : M unit := if b then m else ret tt.

Definition emit (e : Event) : M unit :=
  fun w => (Return tt, mkWorld (fs w) (push (trace w) e)).

Definition BACKSLASH : char16 := 92.

(** The [msg.replace] of [gitCommit]: every double quote becomes a
    backslash and a double quote (the replacement holds no [$], so it is
    taken as it is); the other characters stay. *)
Definition escape_quotes (msg : jsstring) : jsstring :=
  msg ≫= λ c, if char_eqb c QUOTE then [BACKSLASH; QUOTE] else [c].

Section Run.
Context (env : Env).

Definition existsSync (path : jsstring) : M bool :=
  fun w => (Return (bool_decide (is_Some (fs w !! path))), w).

Definition readFileSync (path : jsstring) : M jsstring :=
  fun w =>
    match fs w !! path with
    | Some data => (Return data, w)
    | None => (Thrown, w)
    end.

(** A file-system call: it changes the files by [change] and returns,
    or it throws, because the system refuses it or [change] does not
    apply, and then leaves the files as they are. *)
Definition mutate_fs (op : FsOp)
  (change : gmap jsstring jsstring -> option (gmap jsstring jsstring)) : M unit :=
  fun w =>
    match (if io_fails env op then None else change (fs w)) with
    | Some fs' => (Return tt, mkWorld fs' (push (trace w) (EFs op true)))
    | None => (Thrown, mkWorld (fs w) (push (trace w) (EFs op false)))
    end.

Definition copyFileSync (src dst : jsstring) : M unit :=
  mutate_fs (CopyFile src dst)
    (fun files => data ← files !! src; Some (<[dst := data]> files)).

Definition writeFileSync (path data : jsstring) : M unit :=
  mutate_fs (WriteFile path data) (fun files => Some (<[path := data]> files)).

Definition unlinkSync (path : jsstring) : M unit :=
  mutate_fs (Unlink path)
    (fun files => _ ← files !! path; Some (delete path files)).

(** [path.join(ROOT, name)] *)
Definition in_root (name : jsstring) : jsstring := ROOT env ++ lit "/" ++ name.

Definition FILES_dna : jsstring := in_root (lit "GAME-DNA.md").
Definition FILES_reference : jsstring := in_root (lit "GAME-REFERENCE.md").
Definition FILES_submissions : jsstring := in_root (lit "submissions.md").
Definition FILES_index : jsstring := in_root (lit "index.html").

(** [Object.entries(FILES)], the paths only. *)
Definition FILES : list jsstring :=
  [FILES_dna; FILES_reference; FILES_submissions; FILES_index].

Definition archivePath (currentVersion : jsstring) : jsstring :=
  in_root (lit "versions/v" ++ currentVersion ++ lit ".html").

Definition bakPath : jsstring := FILES_index ++ lit ".bak".

(** [execSync(command, ...)]: the command line goes to a shell; the call
    throws when the command fails.  What the shell and the command do is
    outside the file map. *)
Definition execSync (command : jsstring) : M unit :=
  fun w =>
    if exec_fails env command
    then (Thrown, mkWorld (fs w) (push (trace w) (EExec command false)))
    else (Return tt, mkWorld (fs w) (push (trace w) (EExec command true))).

(** [gitCommit]: the two git commands run in a [try] whose handler only
    warns.  The message is spliced between double quotes into the command
    line of the second one, with its own double quotes escaped and nothing
    else: the shell still reads [$], backquotes and backslashes in it. *)
Definition gitCommit (version summary : jsstring) : M unit :=
  try_catch
    (execSync (lit "git add index.html GAME-REFERENCE.md") ;;
     let msg := lit "v" ++ version ++ lit ": " ++ summary in
     execSync (lit "git commit -m " ++ QUOTE :: escape_quotes msg ++ [QUOTE]))
    (ret tt).

(** The filter of step 1 on the lines of [submissions.md]. *)
Definition is_submission (l : jsstring) : bool :=
  negb (string_eqb (trim l) [])
  && negb (starts_with (lit "#") l)
  && negb (starts_with (lit "<!--") l).

Definition userMessage (referenceContent submissionsContent currentVersion : jsstring)
  : jsstring :=
  join_nl
    [ lit "## Current Game State (GAME-REFERENCE.md)" ++ [NL];
      referenceContent;
      NL :: lit "---" ++ [NL];
      lit "## Player Submissions" ++ [NL];
      submissionsContent;
      NL :: lit "---" ++ [NL];
      lit "Follow the Mutation Workflow from your system prompt. Output your mutation using the `apply_mutation` tool.";
      lit "The current version is v" ++ currentVersion ++ lit "." ].

Definition tool_use_input (b : Block) : option Mutation :=
  match b with
  | ToolUse input => Some input
  | TextBlock _ => None
  end.

(** [response.content.find((b) => b.type === 'tool_use')] *)
Definition find_tool_use (blocks : list Block) : option Mutation :=
  head (omap tool_use_input blocks).

(** What steps 1 to 5 hand over to the rest of [main]. *)
Record Prepared : Type := mkPrepared {
  currentVersion : jsstring;
  mutation       : Mutation;
  newHtml        : jsstring;
}.

(** Step 1: every file must exist; then the four files are read and the
    submissions checked. *)
Fixpoint check_files (paths : list jsstring) : M unit :=
  match paths with
  | [] => ret tt
  | filePath :: paths' =>
      let* present := existsSync filePath in
      if present then check_files paths' else process_exit (A:=unit) 1
  end.

(** Steps 1 to 5 of [main]: read, request, extract, apply in memory. *)
Definition prepare : M Prepared :=
  check_files FILES ;;
  let* dnaContent := readFileSync FILES_dna in
  let* referenceContent := readFileSync FILES_reference in
  let* submissionsContent := readFileSync FILES_submissions in
  let* indexHtml := readFileSync FILES_index in
  let submissionLines := filter (fun l => is_submission l = true) (split_nl submissionsContent) in
  if bool_decide (length submissionLines = 0%nat) then process_exit (A:=Prepared) 1
  else
    let currentVersion := getCurrentVersion indexHtml in
    (* 2. Verify API key *)
    if negb (match ANTHROPIC_API_KEY env with
             | Some key => negb (string_eqb key [])
             | None => false
             end)
    then process_exit 1
    else
      (* 3. Call the service *)
      let model := match MUTATE_MODEL env with
                   | Some m => if string_eqb m [] then lit "claude-sonnet-4-20250514" else m
                   | None => lit "claude-sonnet-4-20250514"
                   end in
      let req := mkRequest model dnaContent
                   (userMessage referenceContent submissionsContent currentVersion) in
      emit (EApiCall req) ;;
      match messages_create env req with
      | ApiRejects => process_exit 1
      | ApiResolves response_content =>
          (* 4. Extract mutation *)
          match find_tool_use response_content with
          | None => process_exit 1
          | Some mutation =>
              (* 5. Apply in-memory *)
              match applySectionChanges indexHtml (sectionChanges mutation) with
              | Err _ => process_exit 1
              | Ok newHtml =>
                  ret (mkPrepared currentVersion mutation
                         (updateVersionString newHtml (versionNumber mutation)))
              end
          end
      end.

(** Steps 6 and 7: validate; abort on errors unless this is a dry run,
    which stops here in any case. *)
Definition validate_step (p : Prepared) : M unit :=
  let errors := validate (newHtml p) in
  when (bool_decide (0 < length errors)%nat)
    (emit (EValidationErrors errors) ;;
     when (negb (DRY_RUN env)) (process_exit 1)) ;;
  when (DRY_RUN env) (process_exit 0).

(** Step 8: archive if MAJOR. *)
Definition archive_step (p : Prepared) : M unit :=
  when (string_eqb (versionType (mutation p)) (lit "MAJOR"))
    (copyFileSync FILES_index (archivePath (currentVersion p))).

(** Step 9: backup, write both documents, remove the backup. *)
Definition write_step (p : Prepared) : M unit :=
  copyFileSync FILES_index bakPath ;;
  try_catch
    (writeFileSync FILES_index (newHtml p) ;;
     writeFileSync FILES_reference (referenceDoc (mutation p)))
    (copyFileSync bakPath FILES_index ;; process_exit 1) ;;
  unlinkSync bakPath.

(** Steps 8 to 10. *)
Definition persist (p : Prepared) : M unit :=
  archive_step p ;;
  write_step p ;;
  gitCommit (versionNumber (mutation p)) (summary (mutation p)).

Definition main_body : M unit :=
  let* p := prepare in
  validate_step p ;;
  persist p.

(** [main().catch(...)]: an exception that escapes [main] ends the
    process with code 1. *)
Definition main : M unit :=
  try_catch main_body (process_exit 1).

End Run.

(** ** Example documents *)

Definition banner_of (name : jsstring) : jsstring :=
  lit "    // ===== " ++ name ++ lit " =====".

(** Three sections and a closing region. *)
Definition doc_abc : jsstring :=
  join_nl [ lit "<html>"; lit "<script>";
            banner_of (lit "CONFIG"); lit "    const a = {};";
            banner_of (lit "STATE");  lit "    let s = 1;";
            banner_of (lit "INIT");   lit "    init();";
            lit "</script>"; lit "</html>" ].

(** The marker text [STATE] twice. *)
Definition doc_twice : jsstring :=
  join_nl [ lit "<script>";
            banner_of (lit "CONFIG"); lit "    const a = {};";
            banner_of (lit "STATE");  lit "    let s = 1;";
            banner_of (lit "STATE");  lit "    let t = 2;";
            lit "</script>" ].

(** ** Vocabulary of the statements *)

Definition st_lines (st : ParseState) : list jsstring :=
  st_preScriptLines st ++ (push_current st ≫= section_lines) ++ st_postScriptLines st.

(** What the loop maintains: nothing follows the sections yet, and
    outside a section the scan is still in the preamble. *)
Definition loop_inv (st : ParseState) : Prop :=
  st_postScriptLines st = [] ∧
  (st_currentSection st = None → st_inPreamble st = true ∧ st_sections st = []).

Definition replace_body (s : DocSection) (X : jsstring) : DocSection :=
  mkSection (bannerLine s) (bannerName s) (split_nl X).

(** The index of the section a change of identifier [n] lands on. *)
Definition slot (secs : list DocSection) (n : jsstring) : option nat :=
  fst <$> list_find (names (get_property SECTION_MAP n)) secs.

(** Two section lists that differ at most in the body of section [i]. *)
Definition same_frame (i : nat) (a b : list DocSection) : Prop :=
  bannerName <$> a = bannerName <$> b
  ∧ bannerLine <$> a = bannerLine <$> b
  ∧ ∀ k, k ≠ i → a !! k = b !! k.

(** An occurrence of the version token pattern: the label followed by at
    least one digit or dot. *)
Definition occurs (s : jsstring) : Prop :=
  ∃ a d b, s = a ++ VERSION_PREFIX ++ d :: b ∧ is_digit_or_dot d = true.

(** The pattern occurs exactly where the scan finds a token. *)
Fixpoint has_token (s : jsstring) : bool :=
  match token_at s with
  | Some _ => true
  | None => match s with [] => false | _ :: s' => has_token s' end
  end.

Definition banner_errors (html : jsstring) (banners : list jsstring) : list jsstring :=
  banners ≫= λ bannerName,
    if negb (includes html bannerName) then [msg_missing_banner bannerName] else [].

(** The path a file-system call writes to or removes. *)
Definition target (op : FsOp) : jsstring :=
  match op with
  | CopyFile _ dst => dst
  | WriteFile path _ => path
  | Unlink path => path
  end.

Definition allowed (paths : list jsstring) (e : Event) : Prop :=
  match e with
  | EFs op _ => target op ∈ paths
  | _ => True
  end.

(** A computation is confined to [paths] when its file-system calls
    target these paths only and every other file stays as it is. *)
Definition confined {A} (paths : list jsstring) (m : M A) : Prop :=
  ∀ w r w', m w = (r, w') →
    (∃ events, trace w' = trace w ++ events ∧ Forall (allowed paths) events)
    ∧ ∀ path, path ∉ paths → fs w' !! path = fs w !! path.

(** A document that passes validation: both closing tags, every marker
    of the table, balanced braces. *)
Definition doc_full : jsstring :=
  join_nl ([ lit "<html>"; lit "<title>Arena Survivor v0.01</title>"; lit "<script>" ]
           ++ (Object_values SECTION_MAP ≫= λ name, [banner_of name; lit "    run({});"])
           ++ [ lit "</script>"; lit "</html>" ]).

(** 4001 empty lines. *)
Definition doc_long : jsstring := replicate 4000 NL.

Definition mutation_example (type : jsstring) : Mutation :=
  mkMutation (lit "1.00") type (lit "bosses arrive") (lit "v1.00 - bosses arrive")
    [mkChange (lit "STATE") (lit "    let boss = {};")] (lit "# Reference v1.00").

Definition env_example (dry : bool) (type : jsstring) : Env :=
  mkEnv dry (lit "/game") (Some (lit "key")) None
    (λ _, ApiResolves [TextBlock (lit "ok"); ToolUse (mutation_example type)])
    (λ _, false) (λ _, false).

Definition world_example (indexHtml : jsstring) : World :=
  mkWorld
    (<[lit "/game/GAME-DNA.md" := lit "rules"]>
     (<[lit "/game/GAME-REFERENCE.md" := lit "# Reference v0.01"]>
      (<[lit "/game/submissions.md" := lit "more bosses"]>
       (<[lit "/game/index.html" := indexHtml]> ∅))))
    [].

(** ** Vocabulary of the further properties *)

(** A line that can stay in a section body: neither a banner nor the
    closing line of the script. *)
Definition body_line (l : jsstring) : Prop :=
  SECTION_BANNER_RE l = None ∧ trim l ≠ lit "</script>".

Definition wf_section (s : DocSection) : Prop :=
  SECTION_BANNER_RE (bannerLine s) = Some (bannerName s)
  ∧ Forall body_line (bodyLines s).

(** What the parser guarantees about its result. *)
Definition wf_parsed (p : Parsed) : Prop :=
  Forall (λ l, SECTION_BANNER_RE l = None) (preScriptLines p)
  ∧ Forall wf_section (sections p)
  ∧ (postScriptLines p = []
     ∨ sections p ≠ []
       ∧ ∃ t post, postScriptLines p = t :: post
                   ∧ SECTION_BANNER_RE t = None ∧ trim t = lit "</script>").

(** The state of the parse loop after the lines of [secs]. *)
Fixpoint st_after (st : ParseState) (secs : list DocSection) : ParseState :=
  match secs with
  | [] => st
  | s :: secs' =>
      st_after {| st_sections := push_current st;
                  st_currentSection := Some s;
                  st_preScriptLines := st_preScriptLines st;
                  st_postScriptLines := st_postScriptLines st;
                  st_inPreamble := false |} secs'
  end.

(** What the parse loop maintains. *)
Definition wf_state (st : ParseState) : Prop :=
  Forall (λ l, SECTION_BANNER_RE l = None) (st_preScriptLines st)
  ∧ Forall wf_section (push_current st)
  ∧ st_postScriptLines st = []
  ∧ (st_currentSection st = None → st_inPreamble st = true ∧ st_sections st = []).

(** A change resolves in a list of sections when its identifier reads a
    banner text from the table and some section carries that text. *)
Definition resolves (secs : list DocSection) (c : Change) : Prop :=
  ∃ b, get_property SECTION_MAP (sectionName c) = JString b
       ∧ b ∈ bannerName <$> secs.
(** A version number as the tool describes it: digits, a dot, digits. *)
Definition version_shaped (v : jsstring) : Prop :=
  ∃ major minor,
    v = major ++ lit "." ++ minor
    ∧ major ≠ [] ∧ Forall (λ c, is_digit c = true) major
    ∧ minor ≠ [] ∧ Forall (λ c, is_digit c = true) minor.
(** The events of a run: what [main] appends to the trace. *)
Definition run_events (env : Env) (w : World) : list Event :=
  drop (length (trace w)) (trace (main env w).2).

(** The proposal the service returns for a request, if it returns one. *)
Definition proposal (env : Env) (req : Request) : option Mutation :=
  match messages_create env req with
  | ApiRejects => None
  | ApiResolves response_content => find_tool_use response_content
  end.

(** The run gets past validation: steps 1 to 5 succeed, the validator
    finds nothing and this is no dry run. *)
Definition passes_validation (env : Env) (w : World) : Prop :=
  ∃ p w1, prepare env w = (Return p, w1)
          ∧ validate (newHtml p) = [] ∧ DRY_RUN env = false.

Definition is_fs_event (e : Event) : Prop :=
  match e with EFs _ _ => True | _ => False end.

Definition is_api_call (e : Event) : Prop :=
  match e with EApiCall _ => True | _ => False end.

#[global] Instance is_api_call_dec e : Decision (is_api_call e).
Proof. destruct e; simpl; apply _. Defined.

(** Steps 2 to 5, once the four files are read. *)
Definition prepare_read (env : Env) (w : World)
  (dnaContent referenceContent submissionsContent indexHtml : jsstring)
  : outcome Prepared * World :=
  if bool_decide
       (length (filter (λ l, is_submission l = true) (split_nl submissionsContent)) = 0%nat)
  then (Exited 1, w)
  else if negb (match ANTHROPIC_API_KEY env with
                | Some key => negb (string_eqb key [])
                | None => false
                end)
  then (Exited 1, w)
  else
    let model := match MUTATE_MODEL env with
                 | Some m => if string_eqb m [] then lit "claude-sonnet-4-20250514" else m
                 | None => lit "claude-sonnet-4-20250514"
                 end in
    let req := mkRequest model dnaContent
                 (userMessage referenceContent submissionsContent
                    (getCurrentVersion indexHtml)) in
    let w1 := mkWorld (fs w) (trace w ++ [EApiCall req]) in
    match proposal env req with
    | None => (Exited 1, w1)
    | Some m =>
        match applySectionChanges indexHtml (sectionChanges m) with
        | Err _ => (Exited 1, w1)
        | Ok patched =>
            (Return (mkPrepared (getCurrentVersion indexHtml) m
                       (updateVersionString patched (versionNumber m))), w1)
        end
    end.

(** Every event a computation appends to the trace satisfies [Q]. *)
Definition emits {A} (Q : Event → Prop) (m : M A) : Prop :=
  ∀ w r w', m w = (r, w') → ∃ events, trace w' = trace w ++ events ∧ Forall Q events.

(** The environment of the examples with a disk that refuses every write
    (copies and removals still succeed). *)
Definition env_write_fails : Env :=
  mkEnv false (lit "/game") (Some (lit "key")) None
    (λ _, ApiResolves [TextBlock (lit "ok"); ToolUse (mutation_example (lit "MINOR"))])
    (λ op, match op with WriteFile _ _ => true | _ => false end) (λ _, false).

(** ** Tactics *)

(** Normal form of concatenations of lines. *)
Ltac norm_lines :=
  repeat (progress (rewrite <- ?(assoc_L (++)), ?app_nil_r; simpl)).

(** Membership in a concatenation of reports. *)
Ltac in_checks := rewrite ?elem_of_app, ?list_elem_of_singleton; intuition.

Ltac unfold_M :=
  unfold mbind, M_bind, bind, try_catch, when, process_exit, ret, emit,
    existsSync, readFileSync in *.

(** ** Properties *)

(** *** Strings *)

Lemma char_eqb_eq a b : char_eqb a b = true ↔ a = b.
Proof. apply N.eqb_eq. Qed.

Lemma string_eqb_eq a b : string_eqb a b = true ↔ a = b.
Proof. unfold string_eqb. by rewrite bool_decide_eq_true. Qed.

Lemma string_eqb_neq a b : string_eqb a b = false ↔ a ≠ b.
Proof. unfold string_eqb. by rewrite bool_decide_eq_false. Qed.

Lemma strip_prefix_Some p s r : strip_prefix p s = Some r ↔ s = p ++ r.
Proof.
  revert s. induction p as [|a p IH]; intros [|b s]; simpl;
    [split; congruence..|].
  destruct (char_eqb a b) eqn:E.
  - apply char_eqb_eq in E as ->. rewrite IH. split; congruence.
  - split; [done|]. intros [= -> _]. unfold char_eqb in E.
    by rewrite N.eqb_refl in E.
Qed.

Lemma strip_prefix_app p r : strip_prefix p (p ++ r) = Some r.
Proof. by apply strip_prefix_Some. Qed.

Lemma split_nl_not_nil s : split_nl s ≠ [].
Proof. destruct s as [|c s]; simpl; [done|]. by repeat case_match. Qed.

Lemma join_nl_cons l ls : ls ≠ [] → join_nl (l :: ls) = l ++ NL :: join_nl ls.
Proof. by destruct ls. Qed.

(** [split] then [join] gives the string back. *)
Lemma join_split s : join_nl (split_nl s) = s.
Proof.
  induction s as [|c s IH]; [done|]. simpl.
  destruct (char_eqb c NL) eqn:E.
  - apply char_eqb_eq in E as ->.
    rewrite join_nl_cons by apply split_nl_not_nil. by rewrite IH.
  - destruct (split_nl s) as [|l ls] eqn:Hs; [by destruct (split_nl_not_nil s)|].
    destruct ls as [|l' ls]; simpl in *; by rewrite <- IH.
Qed.

(** *** The parser loses no line *)

Lemma parse_loop_lines lines st :
  loop_inv st → st_lines (parse_loop lines st) = st_lines st ++ lines.
Proof.
  revert st. induction lines as [|line rest IH]; intros st [Hpost Hcur]; simpl.
  { by rewrite app_nil_r. }
  destruct (SECTION_BANNER_RE line) as [name|];
    [|destruct (st_currentSection st) as [cur|] eqn:Hc;
      [destruct (string_eqb _ _)|destruct (Hcur eq_refl) as [Hp Hs]]];
    rewrite ?Hp;
    rewrite ?IH by (split; [done|]; simpl; done);
    unfold st_lines, push_current, push, section_lines; simpl;
    rewrite ?Hc, ?Hs, ?Hpost, ?bind_app, ?app_nil_r; simpl;
    rewrite ?app_nil_r, <- ?(assoc_L (++)); simpl;
    by rewrite <- ?(assoc_L (++)).
Qed.

Lemma parseIntoSections_lines html :
  allLines (preScriptLines (parseIntoSections html))
           (sections (parseIntoSections html))
           (postScriptLines (parseIntoSections html)) = split_nl html.
Proof.
  unfold parseIntoSections, allLines; simpl.
  change (st_lines (parse_loop (split_nl html) parse_init) = split_nl html).
  rewrite parse_loop_lines; [done|]. by split.
Qed.

(** C2. Round-trip identity: parsing a document into preamble, sections
    and postamble and reassembling it, which is what [applySectionChanges]
    does with an empty change list, gives the document back.  This holds
    for every document, in particular for those whose markers are
    well-formed and non-overlapping. *)
Theorem roundtrip_identity (html : jsstring) :
  join_nl (allLines (preScriptLines (parseIntoSections html))
                    (sections (parseIntoSections html))
                    (postScriptLines (parseIntoSections html))) = html
  ∧ applySectionChanges html [] = Ok html.
Proof.
  assert (join_nl (allLines (preScriptLines (parseIntoSections html))
                    (sections (parseIntoSections html))
                    (postScriptLines (parseIntoSections html))) = html) as H.
  { by rewrite parseIntoSections_lines, join_split. }
  split; [done|]. unfold applySectionChanges. cbn [apply_changes]. by rewrite H.
Qed.
(** *** The section table *)

Lemma own_property_values o key v : own_property o key = Some v → v ∈ Object_values o.
Proof.
  unfold Object_values. induction o as [|[k v'] o IH]; simpl; [done|].
  destruct (string_eqb k key); [intros [= ->]; left|right; auto].
Qed.

Lemma SECTION_MAP_values_nonempty : Forall (λ v, v ≠ []) (Object_values SECTION_MAP).
Proof. apply (bool_decide_unpack _). vm_compute. exact I. Qed.

(** A banner text read from the table is a non-empty string. *)
Lemma SECTION_MAP_truthy key banner :
  get_property SECTION_MAP key = JString banner → truthy (JString banner) = true.
Proof.
  unfold get_property. destruct (own_property _ _) as [v|] eqn:Hv.
  - intros [= <-]. apply own_property_values in Hv.
    pose proof SECTION_MAP_values_nonempty as Hne. rewrite Forall_forall in Hne.
    simpl. apply negb_true_iff, string_eqb_neq. auto.
  - by case_bool_decide.
Qed.

(** *** One change *)

(** The change lands on the first section that carries the banner text. *)
Lemma apply_change_first l1 s l2 id X :
  get_property SECTION_MAP id = JString (bannerName s) →
  Forall (λ a, bannerName a ≠ bannerName s) l1 →
  apply_change (l1 ++ s :: l2) (mkChange id X) = Ok (l1 ++ replace_body s X :: l2).
Proof.
  intros Hid Hl1. unfold apply_change; simpl.
  rewrite Hid, (SECTION_MAP_truthy _ _ Hid); simpl.
  assert (list_find (names (JString (bannerName s))) (l1 ++ s :: l2)
          = Some (length l1, s)) as ->.
  { apply list_find_Some. split_and!.
    - by rewrite list_lookup_middle.
    - done.
    - intros j y Hj Hlt [= Hy]. rewrite lookup_app_l in Hj by done.
      rewrite Forall_lookup in Hl1. by eapply Hl1. }
  f_equal. by rewrite insert_app_r_alt, Nat.sub_diag by done.
Qed.

Lemma apply_change_unknown secs id X :
  get_property SECTION_MAP id = JUndefined →
  apply_change secs (mkChange id X) = Err (UnknownSectionName id).
Proof. intros Hid. unfold apply_change; simpl. by rewrite Hid. Qed.

Lemma apply_change_not_found secs id X banner :
  get_property SECTION_MAP id = JString banner →
  Forall (λ a, bannerName a ≠ banner) secs →
  apply_change secs (mkChange id X) = Err (SectionNotFound (JString banner)).
Proof.
  intros Hid Hsecs. unfold apply_change; simpl.
  rewrite Hid, (SECTION_MAP_truthy _ _ Hid); simpl.
  assert (list_find (names (JString banner)) secs = None) as ->; [|done].
  apply list_find_None. eapply Forall_impl; [done|]. intros a Ha [= ?]. done.
Qed.

Lemma apply_change_inherited secs id X :
  get_property SECTION_MAP id = JInherited id →
  apply_change secs (mkChange id X) = Err (SectionNotFound (JInherited id)).
Proof.
  intros Hid. unfold apply_change; simpl. rewrite Hid; simpl.
  assert (list_find (names (JInherited id)) secs = None) as ->; [|done].
  apply list_find_None, Forall_forall. intros a _ [=].
Qed.

(** C3. Targeted replacement isolation: in a document with sections A, B, C
    (B not named like A), a change set that replaces only B with content X
    returns the document in which the preamble, A's marker line and body,
    B's marker line, C's marker line and body and the postamble are the
    original ones, in the original order, and B's body is the lines of X. *)
Theorem targeted_replacement html pre A B C post id X :
  parseIntoSections html = mkParsed pre [A; B; C] post →
  get_property SECTION_MAP id = JString (bannerName B) →
  bannerName A ≠ bannerName B →
  apply_changes [A; B; C] [mkChange id X]
    = Ok [A; mkSection (bannerLine B) (bannerName B) (split_nl X); C]
  ∧ applySectionChanges html [mkChange id X]
    = Ok (join_nl (pre ++ (bannerLine A :: bodyLines A)
                       ++ (bannerLine B :: split_nl X)
                       ++ (bannerLine C :: bodyLines C) ++ post)).
Proof.
  intros Hparse Hid HAB.
  assert (apply_changes [A; B; C] [mkChange id X]
          = Ok [A; mkSection (bannerLine B) (bannerName B) (split_nl X); C]) as Happ.
  { cbn [apply_changes].
    pose proof (apply_change_first [A] B [C] id X Hid) as H.
    cbn [app] in H. rewrite H; [done|]. by constructor. }
  split; [done|]. unfold applySectionChanges. rewrite Hparse.
  cbn [sections preScriptLines postScriptLines]. rewrite Happ.
  unfold allLines. by norm_lines.
Qed.

(** The three sections of [doc_abc], with a change of [STATE]. *)
Lemma targeted_replacement_witness :
  applySectionChanges doc_abc [mkChange (lit "STATE") (lit "    let s = 2;")]
  = Ok (join_nl [ lit "<html>"; lit "<script>";
                  banner_of (lit "CONFIG"); lit "    const a = {};";
                  banner_of (lit "STATE");  lit "    let s = 2;";
                  banner_of (lit "INIT");   lit "    init();";
                  lit "</script>"; lit "</html>" ]).
Proof.
  refine (proj2 (targeted_replacement doc_abc [lit "<html>"; lit "<script>"]
            (mkSection (banner_of (lit "CONFIG")) (lit "CONFIG") [lit "    const a = {};"])
            (mkSection (banner_of (lit "STATE")) (lit "STATE") [lit "    let s = 1;"])
            (mkSection (banner_of (lit "INIT")) (lit "INIT") [lit "    init();"])
            [lit "</script>"; lit "</html>"] (lit "STATE") (lit "    let s = 2;") _ _ _)).
  - vm_compute. reflexivity.
  - vm_compute. reflexivity.
  - vm_compute. discriminate.
Defined.

(** C10. When several sections carry the same marker text, a change that
    targets it replaces the body of the first of them in document order
    only: the sections before it and all sections after it, those of the
    same marker text included, are returned as they were. *)
Theorem duplicate_marker_first_only html pre l1 s l2 post id X :
  parseIntoSections html = mkParsed pre (l1 ++ s :: l2) post →
  get_property SECTION_MAP id = JString (bannerName s) →
  Forall (λ a, bannerName a ≠ bannerName s) l1 →
  apply_changes (l1 ++ s :: l2) [mkChange id X]
    = Ok (l1 ++ mkSection (bannerLine s) (bannerName s) (split_nl X) :: l2)
  ∧ applySectionChanges html [mkChange id X]
    = Ok (join_nl (pre ++ (l1 ≫= section_lines)
                       ++ (bannerLine s :: split_nl X)
                       ++ (l2 ≫= section_lines) ++ post)).
Proof.
  intros Hparse Hid Hl1.
  assert (apply_changes (l1 ++ s :: l2) [mkChange id X]
          = Ok (l1 ++ replace_body s X :: l2)) as Happ.
  { cbn [apply_changes]. by rewrite (apply_change_first l1 s l2 id X Hid). }
  split; [done|]. unfold applySectionChanges. rewrite Hparse.
  cbn [sections preScriptLines postScriptLines]. rewrite Happ.
  unfold allLines. rewrite bind_app, bind_cons. by norm_lines.
Qed.

(** [doc_twice] has two sections named [STATE]; the second keeps its body. *)
Lemma duplicate_marker_first_only_witness :
  applySectionChanges doc_twice [mkChange (lit "STATE") (lit "    let s = 9;")]
  = Ok (join_nl [ lit "<script>";
                  banner_of (lit "CONFIG"); lit "    const a = {};";
                  banner_of (lit "STATE");  lit "    let s = 9;";
                  banner_of (lit "STATE");  lit "    let t = 2;";
                  lit "</script>" ]).
Proof.
  refine (proj2 (duplicate_marker_first_only doc_twice [lit "<script>"]
            [mkSection (banner_of (lit "CONFIG")) (lit "CONFIG") [lit "    const a = {};"]]
            (mkSection (banner_of (lit "STATE")) (lit "STATE") [lit "    let s = 1;"])
            [mkSection (banner_of (lit "STATE")) (lit "STATE") [lit "    let t = 2;"]]
            [lit "</script>"] (lit "STATE") (lit "    let s = 9;") _ _ _)).
  - vm_compute. reflexivity.
  - vm_compute. reflexivity.
  - repeat constructor. vm_compute. discriminate.
Defined.

(** *** Repeated identifiers *)

Lemma list_find_names v a b :
  bannerName <$> a = bannerName <$> b →
  fst <$> list_find (names v) a = fst <$> list_find (names v) b.
Proof.
  revert b. induction a as [|s a IH]; intros [|t b] Heq; try done.
  injection Heq as Hst Hab. simpl.
  destruct (decide (names v s)) as [Hs|Hs], (decide (names v t)) as [Ht|Ht];
    unfold names in Hs, Ht; simpl; try done; try congruence.
  specialize (IH b Hab).
  destruct (list_find (names v) a) as [[]|], (list_find (names v) b) as [[]|];
    simplify_eq/=; done.
Qed.

Lemma apply_change_Ok a c a' :
  apply_change a c = Ok a' →
  ∃ j s, slot a (sectionName c) = Some j ∧ a !! j = Some s
         ∧ a' = <[j := replace_body s (content c)]> a.
Proof.
  unfold apply_change, slot. destruct (negb _); [done|].
  destruct (list_find _ a) as [[j s]|] eqn:Hf; [|done].
  intros [= <-]. apply list_find_Some in Hf as (? & _). by exists j, s.
Qed.

Lemma same_frame_lookup i a b k s :
  same_frame i a b → a !! k = Some s →
  ∃ t, b !! k = Some t ∧ bannerName t = bannerName s ∧ bannerLine t = bannerLine s.
Proof.
  intros (Hn & Hl & _) Hk.
  assert ((bannerName <$> b) !! k = Some (bannerName s)) as Hbn
    by (by rewrite <- Hn, list_lookup_fmap, Hk).
  assert ((bannerLine <$> b) !! k = Some (bannerLine s)) as Hbl
    by (by rewrite <- Hl, list_lookup_fmap, Hk).
  rewrite list_lookup_fmap in Hbn, Hbl.
  destruct (b !! k) as [t|]; simplify_eq/=. eauto.
Qed.

(** One change keeps two lists in the same frame, fails on both or on
    none, and makes them equal when it lands on the section in which
    they differ. *)
Lemma apply_change_frame i a b c :
  same_frame i a b →
  match apply_change a c, apply_change b c with
  | Ok a', Ok b' =>
      same_frame i a' b' ∧ (slot b (sectionName c) = Some i → a' = b')
  | Err e, Err e' => e = e'
  | _, _ => False
  end.
Proof.
  intros Hab. pose proof Hab as (Hn & Hl & Hk).
  pose proof (list_find_names (get_property SECTION_MAP (sectionName c)) a b Hn) as Hf.
  unfold slot. unfold apply_change. destruct (negb _); [done|].
  destruct (list_find _ a) as [[j s]|] eqn:Ha,
           (list_find _ b) as [[j' t]|] eqn:Hb; simplify_eq/=; [|done].
  apply list_find_Some in Ha as (Ha & _). apply list_find_Some in Hb as (Hb & _).
  destruct (same_frame_lookup _ _ _ _ _ Hab Ha) as (t' & Ht' & Hbn & Hbl).
  assert (t' = t) as -> by congruence. rewrite Hbn, Hbl.
  split.
  - split_and!.
    + by rewrite !list_fmap_insert, Hn.
    + by rewrite !list_fmap_insert, Hl.
    + intros k Hki. destruct (decide (k = j')) as [->|].
      * rewrite !list_lookup_insert_eq; eauto using lookup_lt_Some.
      * rewrite !list_lookup_insert_ne by done. auto.
  - intros [= ->]. apply list_eq. intros k. destruct (decide (k = i)) as [->|].
    + rewrite !list_lookup_insert_eq; eauto using lookup_lt_Some.
    + rewrite !list_lookup_insert_ne by done. auto.
Qed.

Lemma apply_change_slot_stable a c a' n :
  apply_change a c = Ok a' → slot a' n = slot a n.
Proof.
  intros (j & s & _ & Hs & ->)%apply_change_Ok. unfold slot.
  apply list_find_names. rewrite list_fmap_insert. simpl.
  apply list_insert_id. by rewrite list_lookup_fmap, Hs.
Qed.

(** Once a later change lands on section [i], a difference in the body
    of section [i] is forgotten. *)
Lemma apply_changes_frame i a b cs c2 :
  same_frame i a b →
  c2 ∈ cs → slot b (sectionName c2) = Some i →
  ∀ r, apply_changes a cs = Ok r ↔ apply_changes b cs = Ok r.
Proof.
  revert a b. induction cs as [|d cs IH]; intros a b Hab Hin Hslot r.
  { by apply elem_of_nil in Hin. }
  simpl. pose proof (apply_change_frame i a b d Hab) as Hd.
  destruct (apply_change a d) as [a'|e] eqn:Ha, (apply_change b d) as [b'|e'] eqn:Hb;
    try done.
  destruct Hd as [Hab' Heq].
  destruct (decide (slot b (sectionName d) = Some i)) as [Hdi|Hdi].
  { by rewrite (Heq Hdi). }
  apply IH; [done| |by rewrite (apply_change_slot_stable _ _ _ _ Hb)].
  apply elem_of_cons in Hin as [->|]; done.
Qed.

Lemma apply_changes_app secs l1 l2 :
  apply_changes secs (l1 ++ l2)
  = match apply_changes secs l1 with
    | Ok secs' => apply_changes secs' l2
    | Err e => Err e
    end.
Proof.
  revert secs. induction l1 as [|c l1 IH]; intros secs; simpl; [done|].
  by destruct (apply_change secs c).
Qed.

Lemma apply_change_same_frame a c a' :
  apply_change a c = Ok a' →
  ∃ i, slot a (sectionName c) = Some i ∧ same_frame i a' a.
Proof.
  intros (i & s & Hslot & Hs & ->)%apply_change_Ok. exists i. split; [done|].
  split_and!.
  - rewrite list_fmap_insert. apply list_insert_id. by rewrite list_lookup_fmap, Hs.
  - rewrite list_fmap_insert. apply list_insert_id. by rewrite list_lookup_fmap, Hs.
  - intros k Hk. by rewrite list_lookup_insert_ne.
Qed.

(** Whether a change fails, and how, depends on its identifier only. *)
Lemma apply_change_Err_name a c c' e :
  sectionName c = sectionName c' → apply_change a c = Err e → apply_change a c' = Err e.
Proof.
  unfold apply_change. intros <-. destruct (negb _); [done|].
  by destruct (list_find _ a) as [[]|].
Qed.

(** A change that fails keeps failing after other changes. *)
Lemma apply_changes_Err a c e cs c' :
  apply_change a c = Err e → c' ∈ cs → sectionName c = sectionName c' →
  ∃ e', apply_changes a cs = Err e'.
Proof.
  revert a. induction cs as [|d cs IH]; intros a Hc Hin Hn.
  { by apply elem_of_nil in Hin. }
  simpl. destruct (apply_change a d) as [a'|e'] eqn:Hd; [|by eauto].
  apply elem_of_cons in Hin as [->|Hin].
  { by rewrite (apply_change_Err_name _ _ _ _ Hn Hc) in Hd. }
  apply IH; [|done..].
  destruct (apply_change_same_frame _ _ _ Hd) as (i & _ & Hframe).
  pose proof (apply_change_frame i a' a c Hframe) as H. rewrite Hc in H.
  destruct (apply_change a' c); [done|by subst].
Qed.

(** C8, as the code has it: a change list that names an identifier twice
    is not rejected for that.  The changes are applied in list order, and
    a change that is followed, anywhere later in the list, by a change
    with the same identifier is overwritten: the list yields a document
    exactly when the list without the earlier change does, and then the
    same document. *)
Theorem duplicate_identifier_last_wins html l1 c1 l2 c2 l3 r :
  sectionName c1 = sectionName c2 →
  applySectionChanges html (l1 ++ c1 :: l2 ++ c2 :: l3) = Ok r
  ↔ applySectionChanges html (l1 ++ l2 ++ c2 :: l3) = Ok r.
Proof.
  intros Hn. unfold applySectionChanges. rewrite !apply_changes_app.
  destruct (apply_changes _ l1) as [s|e]; [|done].
  cbn [apply_changes].
  assert (c2 ∈ l2 ++ c2 :: l3) as Hin by (apply elem_of_app; right; left).
  destruct (apply_change s c1) as [a|e] eqn:Hc1.
  - destruct (apply_change_same_frame _ _ _ Hc1) as (i & Hslot & Hframe).
    rewrite Hn in Hslot.
    pose proof (apply_changes_frame i a s _ c2 Hframe Hin Hslot) as Heq.
    destruct (apply_changes a _) as [ra|] eqn:Ha, (apply_changes s _) as [rs|] eqn:Hs.
    + assert (ra = rs) as ->; [|done].
      destruct (Heq ra) as [H _]. by injection (H eq_refl).
    + destruct (Heq ra) as [H _]. discriminate (H eq_refl).
    + destruct (Heq rs) as [_ H]. discriminate (H eq_refl).
    + done.
  - destruct (apply_changes_Err s c1 e _ c2 Hc1 Hin Hn) as [e' ->]. done.
Qed.

(** [STATE] changed twice, with a change of [INIT] in between. *)
Lemma duplicate_identifier_last_wins_witness :
  applySectionChanges doc_abc
    [mkChange (lit "STATE") (lit "one"); mkChange (lit "INIT") (lit "go();");
     mkChange (lit "STATE") (lit "two")]
  = applySectionChanges doc_abc
      [mkChange (lit "INIT") (lit "go();"); mkChange (lit "STATE") (lit "two")].
Proof.
  pose proof (duplicate_identifier_last_wins doc_abc []
                (mkChange (lit "STATE") (lit "one"))
                [mkChange (lit "INIT") (lit "go();")]
                (mkChange (lit "STATE") (lit "two")) []) as H.
  cbn [app] in H.
  destruct (applySectionChanges doc_abc
              [mkChange (lit "STATE") (lit "one"); mkChange (lit "INIT") (lit "go();");
               mkChange (lit "STATE") (lit "two")]) as [r|e] eqn:Hr.
  - symmetry. by apply H.
  - vm_compute in Hr. discriminate Hr.
Defined.

(** C8 fails as stated: a change list that names [STATE] twice is applied. *)
Lemma duplicate_identifier_not_rejected :
  ¬ (∀ html changes,
       ¬ NoDup (sectionName <$> changes) →
       ∃ e, applySectionChanges html changes = Err e).
Proof.
  intros H.
  destruct (H doc_abc [mkChange (lit "STATE") (lit "one");
                       mkChange (lit "STATE") (lit "two")]) as [e He].
  - intros Hnd. apply NoDup_cons in Hnd as [Hin _]. apply Hin. left.
  - vm_compute in He. discriminate He.
Qed.

(** C4, at an identifier that is not in the table but names a member of
    [Object.prototype]: the read [SECTION_MAP[name]] is truthy, the guard
    for unknown names does not fire, and the error is the one for a
    section that is not in the document. *)
Theorem inherited_name_not_unknown html X :
  own_property SECTION_MAP (lit "constructor") = None
  ∧ applySectionChanges html [mkChange (lit "constructor") X]
    = Err (SectionNotFound (JInherited (lit "constructor"))).
Proof.
  split; [by vm_compute|]. unfold applySectionChanges. cbn [apply_changes].
  by rewrite apply_change_inherited.
Qed.

(** *** The version token *)

Lemma span_app p s : (span p s).1 ++ (span p s).2 = s.
Proof.
  induction s as [|c s IH]; simpl; [done|].
  destruct (p c); [|done]. destruct (span p s); simpl in *. by rewrite IH.
Qed.

Lemma span_run p run rest :
  Forall (λ c, p c = true) run →
  (∀ d, head rest = Some d → p d = false) →
  span p (run ++ rest) = (run, rest).
Proof.
  intros Hrun Hrest. induction Hrun as [|c run Hc _ IH]; simpl.
  - destruct rest as [|d rest]; [done|]. simpl. by rewrite (Hrest d).
  - by rewrite Hc, IH.
Qed.

Lemma span_nil_inv p s : (span p s).1 = [] → ∀ d, head s = Some d → p d = false.
Proof.
  destruct s as [|c s]; simpl; [done|]. intros H d [= <-].
  destruct (p c); [|done]. by destruct (span p s).
Qed.

Lemma token_at_inv s m :
  token_at s = Some m →
  ∃ d b, s = VERSION_PREFIX ++ d :: b ∧ is_digit_or_dot d = true.
Proof.
  unfold token_at. destruct (strip_prefix VERSION_PREFIX s) as [s1|] eqn:Hs; [|done].
  apply strip_prefix_Some in Hs as ->. simpl.
  destruct s1 as [|d s1]; simpl; [done|].
  destruct (is_digit_or_dot d) eqn:Hd; [|done].
  intros _. by exists d, s1.
Qed.

Lemma token_at_occurs s m : token_at s = Some m → occurs s.
Proof. intros (d & b & -> & Hd)%token_at_inv. by exists [], d, b. Qed.

Lemma token_at_run run rest :
  run ≠ [] →
  Forall (λ c, is_digit_or_dot c = true) run →
  (∀ d, head rest = Some d → is_digit_or_dot d = false) →
  token_at (VERSION_PREFIX ++ run ++ rest) = Some (VERSION_PREFIX ++ run).
Proof.
  intros Hne Hrun Hrest. unfold token_at.
  rewrite strip_prefix_app. simpl. rewrite span_run by done.
  by rewrite (proj2 (string_eqb_neq run [])).
Qed.

Lemma token_at_start d t :
  is_digit_or_dot d = true → is_Some (token_at (VERSION_PREFIX ++ d :: t)).
Proof.
  intros Hd. unfold token_at. rewrite strip_prefix_app. simpl. rewrite Hd.
  by destruct (span is_digit_or_dot t).
Qed.

Lemma occurs_suffix a s : occurs s → occurs (a ++ s).
Proof.
  intros (a' & d & b & -> & Hd). exists (a ++ a'), d, b.
  by rewrite <- (assoc_L (++)).
Qed.

(** A text free of occurrences is copied as it is, whatever follows it,
    as long as no occurrence starts inside it. *)
Lemma replace_tokens_plain replacement before a rest :
  (∀ u c v, a = u ++ c :: v → token_at (c :: v ++ rest) = None) →
  replace_tokens replacement before 0 (a ++ rest)
  = a ++ replace_tokens replacement (before ++ a) 0 rest.
Proof.
  revert before. induction a as [|c a IH]; intros before Hfree; simpl.
  { by rewrite app_nil_r. }
  rewrite (Hfree [] c a eq_refl). f_equal.
  rewrite IH, <- (assoc_L (++)); [done|].
  intros u c' v ->. by apply (Hfree (c :: u) c' v).
Qed.

Lemma replace_tokens_skip replacement before u s :
  replace_tokens replacement before (length u) (u ++ s)
  = replace_tokens replacement (before ++ u) 0 s.
Proof.
  revert before. induction u as [|c u IH]; intros before; simpl.
  - by rewrite app_nil_r.
  - by rewrite IH, <- (assoc_L (++)).
Qed.

(** At an occurrence the substitution is emitted and the scan resumes
    after the run of digits and dots. *)
Lemma replace_tokens_token replacement before run rest :
  run ≠ [] →
  Forall (λ c, is_digit_or_dot c = true) run →
  (∀ d, head rest = Some d → is_digit_or_dot d = false) →
  replace_tokens replacement before 0 (VERSION_PREFIX ++ run ++ rest)
  = GetSubstitution (VERSION_PREFIX ++ run) before rest replacement
    ++ replace_tokens replacement (before ++ VERSION_PREFIX ++ run) 0 rest.
Proof.
  intros Hne Hrun Hrest.
  pose proof (token_at_run run rest Hne Hrun Hrest) as Htok.
  remember (VERSION_PREFIX ++ run) as m eqn:Hm.
  assert (VERSION_PREFIX ++ run ++ rest = m ++ rest) as Hs
    by (by rewrite Hm, <- (assoc_L (++))).
  rewrite Hs in *.
  destruct m as [|c m']; [by destruct run|].
  cbn [app replace_tokens]. cbn [app] in Htok. rewrite Htok.
  replace (drop (length (c :: m')) (c :: m' ++ rest)) with rest
    by (symmetry; apply (drop_app_length (c :: m') rest)).
  replace (length (c :: m') - 1)%nat with (length m') by (simpl; lia).
  by rewrite replace_tokens_skip, <- (assoc_L (++)).
Qed.

Lemma GetSubstitution_plain matched before after replacement :
  DOLLAR ∉ replacement →
  GetSubstitution matched before after replacement = replacement.
Proof.
  induction replacement as [|c r IH]; simpl; [done|].
  intros Hc. apply not_elem_of_cons in Hc as [Hc Hr].
  destruct (char_eqb c DOLLAR) eqn:E; [by apply char_eqb_eq in E|].
  by rewrite IH.
Qed.

(** C9. A document without an occurrence of the version token pattern is
    returned unchanged by [updateVersionString], for every new version. *)
Theorem no_token_identity html newVersion :
  ¬ occurs html → updateVersionString html newVersion = html.
Proof.
  intros Hfree. unfold updateVersionString.
  rewrite <- (app_nil_r html) at 1. rewrite replace_tokens_plain.
  - simpl. by rewrite app_nil_r.
  - intros u c v ->. rewrite app_nil_r.
    destruct (token_at (c :: v)) as [m|] eqn:Hm; [|done].
    destruct Hfree. by eapply occurs_suffix, token_at_occurs.
Qed.

Lemma has_token_eq s :
  has_token s = match token_at s with
                | Some _ => true
                | None => match s with [] => false | _ :: s' => has_token s' end
                end.
Proof. by destruct s. Qed.

Lemma occurs_has_token s : occurs s → has_token s = true.
Proof.
  intros (a & d & b & -> & Hd). induction a as [|c a IH]; rewrite has_token_eq.
  - cbn [app]. by destruct (token_at_start d b Hd) as [m ->].
  - cbn [app]. rewrite IH. by destruct (token_at _).
Qed.

(** A title without a version. *)
Lemma no_token_identity_witness :
  updateVersionString (lit "<title>Arena Survivor</title>") (lit "0.02")
  = lit "<title>Arena Survivor</title>".
Proof.
  apply no_token_identity. intros H%occurs_has_token.
  vm_compute in H. discriminate H.
Defined.

(** The label does not overlap itself: its first code unit, [A], occurs
    nowhere else in it and is neither a digit nor a dot. *)
Lemma prefix_no_overlap i c :
  (0 < i)%nat → (VERSION_PREFIX ++ [c]) !! i = Some 65 → is_digit_or_dot c = false.
Proof.
  intros Hi Hc. do 17 (destruct i as [|i]; [try lia; try (by vm_compute in Hc)|]).
  - by injection Hc as ->.
  - by vm_compute in Hc.
Qed.

(** No occurrence starts inside a text free of occurrences that is
    followed by the label. *)
Lemma token_at_before_prefix c v w :
  token_at (c :: v) = None →
  token_at (c :: v ++ VERSION_PREFIX ++ w) = None.
Proof.
  intros Hv. destruct (token_at (c :: v ++ _)) as [m|] eqn:Hm; [|done].
  apply token_at_inv in Hm as (d & b & Hs & Hd). exfalso.
  change (c :: v ++ VERSION_PREFIX ++ w) with ((c :: v) ++ VERSION_PREFIX ++ w) in Hs.
  replace (VERSION_PREFIX ++ d :: b) with ((VERSION_PREFIX ++ [d]) ++ b) in Hs
    by (by rewrite <- (assoc_L (++))).
  set (u := c :: v) in *.
  assert (length (VERSION_PREFIX ++ [d]) = 17%nat) as Hlen by done.
  destruct (decide (length u < 17)%nat) as [Hlt|Hge].
  - assert ((VERSION_PREFIX ++ [d]) !! length u = Some 65) as H65.
    { rewrite <- (lookup_app_l _ b) by lia. rewrite <- Hs.
      rewrite lookup_app_r by lia. by rewrite Nat.sub_diag. }
    apply prefix_no_overlap in H65; [congruence|simpl; lia].
  - assert (take 17 u = VERSION_PREFIX ++ [d]) as Htake.
    { rewrite <- (take_app_le u (VERSION_PREFIX ++ w)) by lia.
      rewrite Hs, <- Hlen. by rewrite take_app_length. }
    assert (is_Some (token_at u)) as [m' Hm'].
    { rewrite <- (take_drop 17 u), Htake, <- (assoc_L (++)).
      by apply token_at_start. }
    subst u. congruence.
Qed.

Lemma not_occurs_suffix u v : ¬ occurs (u ++ v) → token_at v = None.
Proof.
  intros Hfree. destruct (token_at v) as [m|] eqn:Hm; [|done].
  destruct Hfree. by eapply occurs_suffix, token_at_occurs.
Qed.

Lemma prefix_no_dollar : DOLLAR ∉ VERSION_PREFIX.
Proof. apply (bool_decide_unpack _). vm_compute. exact I. Qed.

Lemma head_before_prefix b w :
  (∀ d, head b = Some d → is_digit_or_dot d = false) →
  ∀ d, head (b ++ VERSION_PREFIX ++ w) = Some d → is_digit_or_dot d = false.
Proof.
  intros Hb d. destruct b as [|c b]; simpl; [|by apply Hb].
  by intros [= <-].
Qed.

Lemma free_before_prefix a w u c v :
  ¬ occurs a → a = u ++ c :: v → token_at (c :: v ++ VERSION_PREFIX ++ w) = None.
Proof.
  intros Ha ->. by eapply token_at_before_prefix, not_occurs_suffix.
Qed.

(** The code for a new version without [$], on a document with the token
    in two places: both carry the new version afterwards, and the text
    around them is unchanged. *)
Lemma version_rewrite_two_places a b c v1 v2 newVersion :
  DOLLAR ∉ newVersion →
  ¬ occurs a → ¬ occurs b → ¬ occurs c →
  v1 ≠ [] → Forall (λ d, is_digit_or_dot d = true) v1 →
  v2 ≠ [] → Forall (λ d, is_digit_or_dot d = true) v2 →
  (∀ d, head b = Some d → is_digit_or_dot d = false) →
  (∀ d, head c = Some d → is_digit_or_dot d = false) →
  updateVersionString
    (a ++ VERSION_PREFIX ++ v1 ++ b ++ VERSION_PREFIX ++ v2 ++ c) newVersion
  = a ++ VERSION_PREFIX ++ newVersion ++ b ++ VERSION_PREFIX ++ newVersion ++ c.
Proof.
  intros Hnv Ha Hb Hc Hv1 Hr1 Hv2 Hr2 Hhb Hhc. unfold updateVersionString.
  assert (DOLLAR ∉ VERSION_PREFIX ++ newVersion) as Hr.
  { rewrite elem_of_app. intros [H|H]; [by apply prefix_no_dollar|done]. }
  rewrite replace_tokens_plain
    by (intros ??? Heq; exact (free_before_prefix _ _ _ _ _ Ha Heq)).
  rewrite replace_tokens_token by (try done; by apply head_before_prefix).
  rewrite GetSubstitution_plain by done.
  rewrite replace_tokens_plain
    by (intros ??? Heq; exact (free_before_prefix _ _ _ _ _ Hb Heq)).
  rewrite replace_tokens_token by done.
  rewrite GetSubstitution_plain by done.
  rewrite <- (app_nil_r c) at 1.
  rewrite replace_tokens_plain.
  - simpl. by rewrite ?app_nil_r, <- ?(assoc_L (++)).
  - intros u c' v ->. rewrite app_nil_r. by eapply not_occurs_suffix.
Qed.

(** A title and a label at 0.00, rewritten to 0.02. *)
Lemma version_rewrite_two_places_example :
  updateVersionString
    (lit "<title>Arena Survivor v0.00</title><p>Arena Survivor v0.00 beta</p>")
    (lit "0.02")
  = lit "<title>Arena Survivor v0.02</title><p>Arena Survivor v0.02 beta</p>".
Proof.
  apply (version_rewrite_two_places (lit "<title>") (lit "</title><p>")
           (lit " beta</p>") (lit "0.00") (lit "0.00") (lit "0.02")).
  - apply (bool_decide_unpack _). vm_compute. exact I.
  - intros H%occurs_has_token. vm_compute in H. discriminate H.
  - intros H%occurs_has_token. vm_compute in H. discriminate H.
  - intros H%occurs_has_token. vm_compute in H. discriminate H.
  - discriminate.
  - apply (bool_decide_unpack _). vm_compute. exact I.
  - discriminate.
  - apply (bool_decide_unpack _). vm_compute. exact I.
  - intros d [= <-]. reflexivity.
  - intros d [= <-]. reflexivity.
Defined.

(** C5, at a new version that contains a replacement pattern: [$&] stands
    for the matched text, so each occurrence is replaced by the label
    followed by the old occurrence and the old version stays in place. *)
Theorem version_rewrite_dollar_pattern :
  updateVersionString
    (lit "<title>Arena Survivor v0.00</title><p>Arena Survivor v0.00 beta</p>")
    (lit "$&")
  = lit "<title>Arena Survivor vArena Survivor v0.00</title><p>Arena Survivor vArena Survivor v0.00 beta</p>".
Proof. vm_compute. reflexivity. Qed.

(** *** The validator *)

Lemma foldl_banner_errors html banners errors :
  foldl (λ errors bannerName,
           if negb (includes html bannerName)
           then push errors (msg_missing_banner bannerName) else errors)
        errors banners
  = errors ++ banner_errors html banners.
Proof.
  revert errors. unfold banner_errors.
  induction banners as [|b banners IH]; intros errors; simpl.
  - by rewrite app_nil_r.
  - rewrite IH. destruct (negb _); unfold push; simpl; [|done].
    by rewrite <- (assoc_L (++)).
Qed.

(** The error list is the concatenation of what each check reports on
    its own. *)
Lemma validate_checks html :
  validate html
  = (if includes html (lit "</script>") then [] else [msg_missing_script])
    ++ (if includes html (lit "</html>") then [] else [msg_missing_html])
    ++ banner_errors html (Object_values SECTION_MAP)
    ++ (if bool_decide (MAX_LINES < length (split_nl html))%nat
        then [msg_too_large (length (split_nl html))] else [])
    ++ match script_match html with
       | Some js => if bool_decide (count_braces js ≠ 0%Z)
                    then [msg_braces (count_braces js)] else []
       | None => []
       end.
Proof.
  unfold validate. rewrite foldl_banner_errors. unfold push.
  destruct (includes html (lit "</script>")), (includes html (lit "</html>")),
    (bool_decide (MAX_LINES < _)%nat), (script_match html) as [js|];
    try destruct (bool_decide (count_braces js ≠ _));
    cbn [negb app]; by rewrite ?app_nil_r, <- ?(assoc_L (++)).
Qed.

Lemma banner_errors_elem html banners b :
  b ∈ banners → includes html b = false →
  msg_missing_banner b ∈ banner_errors html banners.
Proof.
  intros Hb Hinc. unfold banner_errors. apply list_elem_of_bind.
  exists b. split; [|done]. rewrite Hinc. simpl. left.
Qed.

(** C7. [validate] runs every check whatever the others found and returns
    all violations together: a missing closing tag of either kind, every
    marker text of the table that the document lacks, a line count above
    the ceiling, and a brace imbalance in the script region are each in
    the result whenever the check fails.  In particular, a document that
    lacks a required marker and exceeds the line ceiling gets both
    reports. *)
Theorem validate_reports_all html :
  (includes html (lit "</script>") = false → msg_missing_script ∈ validate html)
  ∧ (includes html (lit "</html>") = false → msg_missing_html ∈ validate html)
  ∧ (∀ b, b ∈ Object_values SECTION_MAP → includes html b = false →
          msg_missing_banner b ∈ validate html)
  ∧ ((MAX_LINES < length (split_nl html))%nat →
     msg_too_large (length (split_nl html)) ∈ validate html)
  ∧ (∀ js, script_match html = Some js → count_braces js ≠ 0%Z →
           msg_braces (count_braces js) ∈ validate html)
  ∧ (∀ b, b ∈ Object_values SECTION_MAP → includes html b = false →
          (MAX_LINES < length (split_nl html))%nat →
          msg_missing_banner b ∈ validate html
          ∧ msg_too_large (length (split_nl html)) ∈ validate html).
Proof.
  rewrite validate_checks.
  assert (∀ b, b ∈ Object_values SECTION_MAP → includes html b = false →
    msg_missing_banner b ∈ banner_errors html (Object_values SECTION_MAP)) as Hb
    by (intros; by apply banner_errors_elem).
  split_and!.
  - intros ->. in_checks.
  - intros ->. in_checks.
  - intros b ? ?. specialize (Hb b). in_checks.
  - intros H. rewrite bool_decide_eq_true_2 by done. in_checks.
  - intros js -> H. rewrite (bool_decide_eq_true_2 _ H). in_checks.
  - intros b ? ? H. specialize (Hb b). rewrite bool_decide_eq_true_2 by done.
    split; in_checks.
Qed.

(** 4001 empty lines: no marker at all, and too many lines. *)
Lemma validate_reports_all_witness :
  msg_missing_banner (lit "CONFIG") ∈ validate doc_long
  ∧ msg_too_large (length (split_nl doc_long)) ∈ validate doc_long.
Proof.
  apply (proj2 (proj2 (proj2 (proj2 (proj2 (validate_reports_all doc_long)))))).
  - apply (bool_decide_unpack _). vm_compute. exact I.
  - vm_compute. reflexivity.
  - apply (bool_decide_unpack _). vm_compute. exact I.
Defined.

(** *** The orchestrator *)

(** Steps 1 to 5 read files and call the service; they leave the files
    alone and what they hand over is computed from [index.html]. *)
Lemma prepare_spec env w r w1 :
  prepare env w = (r, w1) →
  fs w1 = fs w
  ∧ (trace w1 = trace w ∨ ∃ req, trace w1 = trace w ++ [EApiCall req])
  ∧ ∀ p, r = Return p →
      ∃ indexHtml patched req,
        fs w !! FILES_index env = Some indexHtml
        ∧ currentVersion p = getCurrentVersion indexHtml
        ∧ applySectionChanges indexHtml (sectionChanges (mutation p)) = Ok patched
        ∧ newHtml p = updateVersionString patched (versionNumber (mutation p))
        ∧ trace w1 = trace w ++ [EApiCall req].
Proof.
  unfold prepare, FILES, check_files. unfold_M. intros H.
  repeat case_match; simplify_eq; simpl; (split_and!; [by eauto..|]);
    intros p' [=]; subst; eexists _, _, _; split_and!; by eauto.
Qed.

Lemma prepare_effects env w r w1 :
  prepare env w = (r, w1) →
  fs w1 = fs w
  ∧ (trace w1 = trace w ∨ ∃ req, trace w1 = trace w ++ [EApiCall req]).
Proof. intros (? & ? & _)%prepare_spec. done. Qed.

Lemma prepare_Return env w p w1 :
  prepare env w = (Return p, w1) →
  ∃ indexHtml patched req,
    fs w !! FILES_index env = Some indexHtml
    ∧ currentVersion p = getCurrentVersion indexHtml
    ∧ applySectionChanges indexHtml (sectionChanges (mutation p)) = Ok patched
    ∧ newHtml p = updateVersionString patched (versionNumber (mutation p))
    ∧ fs w1 = fs w
    ∧ trace w1 = trace w ++ [EApiCall req].
Proof.
  intros (Hfs & _ & Hp)%prepare_spec.
  destruct (Hp p eq_refl) as (indexHtml & patched & req & ? & ? & ? & ? & ?).
  by exists indexHtml, patched, req.
Qed.

Section Confined.
Context (env : Env) (paths : list jsstring).

Lemma confined_ret {A} (a : A) : confined paths (mret a : M A).
Proof.
  intros w r w' [= <- <-]. split; [|done]. exists []. by rewrite app_nil_r.
Qed.

Lemma confined_exit {A} code : confined paths (process_exit code : M A).
Proof.
  intros w r w' [= <- <-]. split; [|done]. exists []. by rewrite app_nil_r.
Qed.

Lemma confined_emit e : allowed paths e → confined paths (emit e).
Proof.
  intros He w r w' [= <- <-]. split; [|done]. exists [e]. split; [done|].
  by constructor.
Qed.

Lemma confined_bind {A B} (m : M A) (k : A → M B) :
  confined paths m → (∀ a, confined paths (k a)) → confined paths (m ≫= k).
Proof.
  intros Hm Hk w r w'. unfold mbind, M_bind, bind.
  destruct (m w) as [[a|code|] w1] eqn:Hmw; destruct (Hm _ _ _ Hmw) as [[ev1 [Ht1 Ha1]] Hf1].
  - intros Hkw. destruct (Hk _ _ _ _ Hkw) as [[ev2 [Ht2 Ha2]] Hf2]. split.
    + exists (ev1 ++ ev2). rewrite Ht2, Ht1, (assoc_L (++)). split; [done|].
      by apply Forall_app.
    + intros path Hp. by rewrite Hf2, Hf1.
  - intros [= <- <-]. eauto.
  - intros [= <- <-]. eauto.
Qed.

Lemma confined_try_catch {A} (m handler : M A) :
  confined paths m → confined paths handler → confined paths (try_catch m handler).
Proof.
  intros Hm Hh w r w'. unfold try_catch.
  destruct (m w) as [[a|code|] w1] eqn:Hmw; destruct (Hm _ _ _ Hmw) as [[ev1 [Ht1 Ha1]] Hf1].
  - intros [= <- <-]. eauto.
  - intros [= <- <-]. eauto.
  - intros Hhw. destruct (Hh _ _ _ Hhw) as [[ev2 [Ht2 Ha2]] Hf2]. split.
    + exists (ev1 ++ ev2). rewrite Ht2, Ht1, (assoc_L (++)). split; [done|].
      by apply Forall_app.
    + intros path Hp. by rewrite Hf2, Hf1.
Qed.

Lemma confined_when b (m : M unit) : confined paths m → confined paths (when b m).
Proof. destruct b; [done|]. intros _. apply confined_ret. Qed.

Lemma confined_mutate_fs op change :
  target op ∈ paths →
  (∀ files files' path, change files = Some files' → path ≠ target op →
                        files' !! path = files !! path) →
  confined paths (mutate_fs env op change).
Proof.
  intros Hop Hch w r w'. unfold mutate_fs.
  destruct (if io_fails env op then None else change (fs w)) as [files'|] eqn:Hc;
    intros [= <- <-]; simpl.
  - split; [by exists [EFs op true]; split; [|constructor]|].
    intros path Hp. destruct (io_fails env op); [done|].
    eapply Hch; [done|]. by intros ->.
  - split; [by exists [EFs op false]; split; [|constructor]|done].
Qed.

Lemma confined_copyFileSync src dst : dst ∈ paths → confined paths (copyFileSync env src dst).
Proof.
  intros Hd. apply confined_mutate_fs; [done|]. simpl.
  intros files files' path Hc Hp. destruct (files !! src); simplify_eq/=.
  by rewrite lookup_insert_ne.
Qed.

Lemma confined_writeFileSync path data : path ∈ paths → confined paths (writeFileSync env path data).
Proof.
  intros Hd. apply confined_mutate_fs; [done|]. simpl.
  intros files files' path' [= <-] Hp. by rewrite lookup_insert_ne.
Qed.

Lemma confined_execSync command : confined paths (execSync env command).
Proof.
  intros w r w'. unfold execSync.
  destruct (exec_fails env command); intros [= <- <-]; simpl;
    (split; [|done]); eexists [_]; (split; [done|]); by constructor.
Qed.

Lemma confined_unlinkSync path : path ∈ paths → confined paths (unlinkSync env path).
Proof.
  intros Hd. apply confined_mutate_fs; [done|]. simpl.
  intros files files' path' Hc Hp. destruct (files !! path); simplify_eq/=.
  by rewrite lookup_delete_ne.
Qed.
End Confined.

(** Steps 9 and 10 only touch the live documents and the backup copy. *)
Lemma write_and_commit_confined env p :
  confined [FILES_index env; FILES_reference env; bakPath env]
    (write_step env p ;; gitCommit env (versionNumber (mutation p)) (summary (mutation p))).
Proof.
  unfold write_step, gitCommit.
  repeat first
    [ apply confined_bind; [|intros ?]
    | apply confined_try_catch
    | apply confined_copyFileSync
    | apply confined_writeFileSync
    | apply confined_unlinkSync
    | apply confined_exit
    | apply confined_ret
    | apply confined_execSync
    | set_solver ].
Qed.

Lemma archivePath_fresh env v :
  archivePath env v ∉ [FILES_index env; FILES_reference env; bakPath env].
Proof.
  unfold archivePath, bakPath, FILES_index, FILES_reference, in_root.
  rewrite !not_elem_of_cons. split_and!; [| | |apply not_elem_of_nil];
    rewrite <- ?(assoc_L (++)); intros H%(inj (app _)); discriminate H.
Qed.

(** An exception that escapes [main]'s body changes neither the files nor
    the trace on its way to [process.exit(1)]. *)
Lemma main_world env w : (main env w).2 = (main_body env w).2.
Proof. unfold main, try_catch, process_exit. by destruct (main_body env w) as [[]]. Qed.

Lemma main_body_prepared env w p w1 :
  prepare env w = (Return p, w1) →
  main_body env w = (validate_step env p ;; persist env p) w1.
Proof. intros H. unfold main_body, bind. by rewrite H. Qed.

Lemma main_body_not_prepared env w code w1 :
  prepare env w = (Exited code, w1) → main env w = (Exited code, w1).
Proof. intros H. unfold main, main_body, try_catch, bind. by rewrite H. Qed.

(** C1. When validation of the reassembled document reports errors, the
    run writes nothing: its only effects are the call to the service and
    the report of the errors, every file is as it was before the run, and
    the process exits, with code 1 in normal mode (before the persistence
    phase) and with code 0 in a dry run (which never persists). *)
Theorem validation_failure_writes_nothing env w p w1 :
  prepare env w = (Return p, w1) →
  validate (newHtml p) ≠ [] →
  (main env w).1 = Exited (if DRY_RUN env then 0 else 1)%Z
  ∧ fs (main env w).2 = fs w
  ∧ ∃ req, trace (main env w).2
           = trace w ++ [EApiCall req; EValidationErrors (validate (newHtml p))].
Proof.
  intros Hp Hv.
  destruct (prepare_Return _ _ _ _ Hp) as (_ & _ & req & _ & _ & _ & _ & Hfs & Htr).
  unfold main, try_catch. rewrite (main_body_prepared _ _ _ _ Hp).
  unfold validate_step. unfold_M.
  rewrite bool_decide_eq_true_2 by (destruct (validate _); [done|simpl; lia]).
  unfold push. simpl.
  destruct (DRY_RUN env); simpl; rewrite Hfs, Htr, <- (assoc_L (++)); eauto.
Qed.

(** A run in normal mode on a document that lacks most markers. *)
Lemma validation_failure_writes_nothing_witness :
  (main (env_example false (lit "MINOR")) (world_example doc_abc)).1 = Exited 1
  ∧ fs (main (env_example false (lit "MINOR")) (world_example doc_abc)).2
    = fs (world_example doc_abc).
Proof.
  destruct (prepare (env_example false (lit "MINOR")) (world_example doc_abc))
    as [[p|code|] w1] eqn:Hp.
  - pose proof Hp as Hp'. vm_compute in Hp'. injection Hp' as <- <-.
    destruct (validation_failure_writes_nothing _ _ _ _ Hp) as (Hr & Hfs & _).
    + vm_compute. discriminate.
    + split; [exact Hr|exact Hfs].
  - vm_compute in Hp. discriminate Hp.
  - vm_compute in Hp. discriminate Hp.
Defined.

Lemma no_archive_target env events :
  Forall (allowed [FILES_index env; FILES_reference env; bakPath env]) events →
  ∀ op ok v, EFs op ok ∈ events → target op ≠ archivePath env v.
Proof.
  intros Hall op ok v Hin Heq. rewrite Forall_forall in Hall.
  apply Hall in Hin. simpl in Hin. rewrite Heq in Hin.
  by apply archivePath_fresh in Hin.
Qed.

Lemma validate_step_pass env p w :
  validate (newHtml p) = [] → DRY_RUN env = false →
  validate_step env p w = (Return tt, w).
Proof. intros Hv Hd. unfold validate_step. unfold_M. by rewrite Hv, Hd. Qed.

Lemma main_persist env w p w1 :
  prepare env w = (Return p, w1) →
  validate (newHtml p) = [] → DRY_RUN env = false →
  (main env w).2 = (persist env p w1).2.
Proof.
  intros Hp Hv Hdry. rewrite main_world, (main_body_prepared _ _ _ _ Hp).
  unfold mbind, M_bind, bind. by rewrite validate_step_pass.
Qed.

Lemma persist_unfold env p w :
  persist env p w
  = match archive_step env p w with
    | (Return _, w2) =>
        (write_step env p ;;
         gitCommit env (versionNumber (mutation p)) (summary (mutation p))) w2
    | (Exited code, w2) => (Exited code, w2)
    | (Thrown, w2) => (Thrown, w2)
    end.
Proof. reflexivity. Qed.

(** C6. A run that reaches the persistence phase copies the live document
    to the archive path of the pre-mutation version exactly when the
    version type is [MAJOR].  The copy is the first file-system call of the
    run, so it comes before any write to the live document, and it is the
    only one: no later call of any kind (copy, write or removal) targets an
    archive path, and the files at the other archive paths are as they
    were.  When the copy succeeds the snapshot holds the pre-mutation
    document at the end of the run; when it fails the run stops with every
    file as it was.  With any other version type no file-system call
    targets an archive path and the file at every archive path is as it
    was before the run: no snapshot is produced. *)
Theorem archive_gating env w p w1 :
  prepare env w = (Return p, w1) →
  validate (newHtml p) = [] →
  DRY_RUN env = false →
  let snapshot := CopyFile (FILES_index env) (archivePath env (currentVersion p)) in
  ∃ indexHtml req rest,
    fs w !! FILES_index env = Some indexHtml
    ∧ currentVersion p = getCurrentVersion indexHtml
    ∧ trace (main env w).2 = trace w ++ EApiCall req :: rest
    ∧ (versionType (mutation p) = lit "MAJOR" →
       ∃ rest',
         rest = EFs snapshot (negb (io_fails env snapshot)) :: rest'
         ∧ (∀ op ok v, EFs op ok ∈ rest' → target op ≠ archivePath env v)
         ∧ (∀ v, archivePath env v ≠ archivePath env (currentVersion p) →
                 fs (main env w).2 !! archivePath env v = fs w !! archivePath env v)
         ∧ (io_fails env snapshot = true → rest' = [] ∧ fs (main env w).2 = fs w)
         ∧ (io_fails env snapshot = false →
            fs (main env w).2 !! archivePath env (currentVersion p) = Some indexHtml))
    ∧ (versionType (mutation p) ≠ lit "MAJOR" →
       (∀ op ok v, EFs op ok ∈ rest → target op ≠ archivePath env v)
       ∧ ∀ v, fs (main env w).2 !! archivePath env v = fs w !! archivePath env v).
Proof.
  intros Hp Hv Hdry snapshot.
  destruct (prepare_Return _ _ _ _ Hp) as (indexHtml & _ & req & Hidx & Hcv & _ & _ & Hfs & Htr).
  exists indexHtml, req. rewrite (main_persist _ _ _ _ Hp Hv Hdry), persist_unfold.
  pose proof (write_and_commit_confined env p) as Hconf.
  unfold archive_step, when.
  destruct (string_eqb (versionType (mutation p)) (lit "MAJOR")) eqn:Hmajor.
  - apply string_eqb_eq in Hmajor.
    unfold copyFileSync, mutate_fs. fold snapshot. rewrite Hfs, Hidx. simpl.
    destruct (io_fails env snapshot) eqn:Hio; simpl.
    + exists [EFs snapshot false]. split_and!; try done.
      * unfold push. by rewrite Htr, <- (assoc_L (++)).
      * intros _. exists []. split_and!; try done.
        intros ??? Hin. by apply elem_of_nil in Hin.
    + match goal with |- context [(?m ≫= ?k) ?w] => destruct ((m ≫= k) w) as [r w3] eqn:Hrest end.
      destruct (Hconf _ _ _ Hrest) as [(events & Hev & Hall) Hkeep]. simpl in *.
      exists (EFs snapshot true :: events). split_and!; try done.
      * unfold push in Hev. by rewrite Hev, Htr, <- !(assoc_L (++)).
      * intros _. exists events. split_and!; try done.
        -- by apply no_archive_target.
        -- intros v Hne. rewrite Hkeep by apply archivePath_fresh.
           by rewrite lookup_insert_ne.
        -- intros _. rewrite Hkeep by apply archivePath_fresh.
           by rewrite lookup_insert_eq.
  - apply string_eqb_neq in Hmajor. unfold ret.
    match goal with |- context [(?m ≫= ?k) ?w] => destruct ((m ≫= k) w) as [r w3] eqn:Hrest end.
    destruct (Hconf _ _ _ Hrest) as [(events & Hev & Hall) Hkeep]. simpl in *.
    exists events. split_and!; try done.
    + by rewrite Hev, Htr, <- !(assoc_L (++)).
    + intros _. split; [by apply no_archive_target|].
      intros v. rewrite Hkeep by apply archivePath_fresh. by rewrite Hfs.
Qed.

(** A [MAJOR] mutation of a valid document at version 0.01. *)
Lemma archive_gating_witness :
  fs (main (env_example false (lit "MAJOR")) (world_example doc_full)).2
    !! lit "/game/versions/v0.01.html" = Some doc_full.
Proof.
  destruct (prepare (env_example false (lit "MAJOR")) (world_example doc_full))
    as [[p|code|] w1] eqn:Hp.
  - pose proof Hp as Hp'. vm_compute in Hp'. injection Hp' as <- <-.
    destruct (archive_gating _ _ _ _ Hp) as (indexHtml & req & rest & Hidx & _ & _ & Hmajor & _).
    + vm_compute. reflexivity.
    + reflexivity.
    + destruct (Hmajor eq_refl) as (rest' & _ & _ & _ & _ & Hsnap).
      vm_compute in Hidx. injection Hidx as <-.
      exact (Hsnap eq_refl).
  - vm_compute in Hp. discriminate Hp.
  - vm_compute in Hp. discriminate Hp.
Defined.

(** A run that stops in steps 1 to 5, for instance because a change names
    an unknown identifier or a section that is not in the document, ends
    before validation and leaves every file as it was. *)
Lemma early_exit_writes_nothing env w code w1 :
  prepare env w = (Exited code, w1) →
  main env w = (Exited code, w1)
  ∧ fs w1 = fs w
  ∧ (trace w1 = trace w ∨ ∃ req, trace w1 = trace w ++ [EApiCall req]).
Proof.
  intros Hp. split; [by apply main_body_not_prepared|].
  by apply (prepare_effects env w (Exited code) w1).
Qed.

(** ** Further properties *)

(** *** Extras: the banner pattern *)

Lemma span_Forall p s : Forall (λ c, p c = true) (span p s).1.
Proof.
  induction s as [|c s IH]; simpl; [done|].
  destruct (p c) eqn:Hc; [|done]. destruct (span p s); simpl in *. by constructor.
Qed.

Lemma span_head p s : ∀ d, head (span p s).2 = Some d → p d = false.
Proof.
  induction s as [|c s IH]; simpl; [done|].
  destruct (p c) eqn:Hc.
  - destruct (span p s); simpl in *. done.
  - simpl. by intros d [= <-].
Qed.

Lemma span_eq p s a b :
  span p s = (a, b) →
  s = a ++ b ∧ Forall (λ c, p c = true) a ∧ ∀ d, head b = Some d → p d = false.
Proof.
  intros H. pose proof (span_app p s). pose proof (span_Forall p s).
  pose proof (span_head p s). by rewrite H in *.
Qed.

Lemma is_space_not_eq c : is_space c = true → char_eqb 61 c = false.
Proof.
  intros Hc. destruct (char_eqb 61 c) eqn:E; [|done].
  apply char_eqb_eq in E as <-. done.
Qed.

Lemma not_space_slash : is_space 47 = false.
Proof. done. Qed.

Lemma banner_tail_closing m ws :
  (0 < m)%nat → Forall (λ c, is_space c = true) ws →
  banner_tail (lit " " ++ replicate m 61 ++ ws) = true.
Proof.
  intros Hm Hws. unfold banner_tail. rewrite strip_prefix_app. cbv beta iota.
  rewrite (span_run (char_eqb 61) _ ws).
  - unfold skip_while.
    rewrite <- (app_nil_r ws), (span_run is_space ws []) by done. simpl.
    destruct m; [lia|done].
  - apply Forall_replicate. apply N.eqb_refl.
  - intros d Hd. apply is_space_not_eq. destruct Hws; simplify_eq/=. done.
Qed.

Lemma banner_tail_inside c name rest :
  Forall (λ c, c ≠ 61) (c :: name) →
  banner_tail (c :: name ++ lit " " ++ rest) = false.
Proof.
  intros Hn. apply Forall_cons in Hn as [Hc Hn]. unfold banner_tail.
  change (lit " ") with [32 : char16]. cbn [strip_prefix].
  destruct (char_eqb 32 c); [|done].
  destruct name as [|d name]; cbn [app span].
  - replace (char_eqb 61 32) with false by done.
    by rewrite (proj2 (string_eqb_eq [] [])).
  - apply Forall_cons in Hn as [Hd _].
    destruct (char_eqb 61 d) eqn:E; [by apply char_eqb_eq in E|].
    by rewrite (proj2 (string_eqb_eq [] [])).
Qed.

Lemma lazy_name_clean name m ws :
  name ≠ [] →
  Forall (λ c, is_line_terminator c = false ∧ c ≠ 61) name →
  (0 < m)%nat → Forall (λ c, is_space c = true) ws →
  lazy_name (name ++ lit " " ++ replicate m 61 ++ ws) = Some name.
Proof.
  intros Hne Hname Hm Hws. induction Hname as [|c name [Hlt Hc] Hname IH]; [done|].
  cbn [app lazy_name]. rewrite Hlt.
  destruct name as [|d name].
  - cbn [app]. by rewrite banner_tail_closing.
  - cbn [app]. rewrite banner_tail_inside.
    + cbn [app] in IH. by rewrite IH.
    + eapply Forall_impl; [exact Hname|]. by intros ? [].
Qed.

(** X1. A line made of white space, [//], a run of [=], a name between
    single spaces, a run of [=] and white space is a banner of that name,
    when the name is not empty and has no [=] and no line terminator. *)
Theorem banner_recognised ws k name m ws' :
  Forall (λ c, is_space c = true) ws → Forall (λ c, is_space c = true) ws' →
  (0 < k)%nat → (0 < m)%nat →
  name ≠ [] → Forall (λ c, is_line_terminator c = false ∧ c ≠ 61) name →
  SECTION_BANNER_RE
    (ws ++ lit "// " ++ replicate k 61 ++ lit " " ++ name ++ lit " "
        ++ replicate m 61 ++ ws') = Some name.
Proof.
  intros Hws Hws' Hk Hm Hne Hname. unfold SECTION_BANNER_RE, skip_while.
  rewrite (span_run is_space ws) by (try done; by intros d [= <-]).
  cbn [snd]. rewrite strip_prefix_app. cbn [mbind option_bind].
  rewrite (span_run (char_eqb 61) (replicate k (61 : char16)))
    by (try (by intros d [= <-]); apply Forall_replicate, N.eqb_refl).
  cbv beta iota. rewrite (proj2 (string_eqb_neq _ [])) by (destruct k; [lia|done]).
  rewrite strip_prefix_app. cbn [mbind option_bind].
  by apply lazy_name_clean.
Qed.

Lemma banner_recognised_witness :
  SECTION_BANNER_RE (lit "    // ===== KILL / XP =====") = Some (lit "KILL / XP").
Proof.
  apply (banner_recognised (lit "    ") 5 (lit "KILL / XP") 5 []).
  - apply (bool_decide_unpack _). vm_compute. exact I.
  - constructor.
  - lia.
  - lia.
  - discriminate.
  - apply (bool_decide_unpack _). vm_compute. exact I.
Defined.

Lemma Forall_char_eqb (c : char16) l :
  Forall (λ d, char_eqb c d = true) l → Forall (λ d, d = c) l.
Proof.
  intros H. eapply Forall_impl; [exact H|]. intros d Hd. symmetry.
  by apply char_eqb_eq.
Qed.

Lemma banner_tail_inv s :
  banner_tail s = true →
  ∃ eqs ws, s = lit " " ++ eqs ++ ws ∧ eqs ≠ [] ∧ Forall (λ c, c = 61) eqs
            ∧ Forall (λ c, is_space c = true) ws.
Proof.
  unfold banner_tail. destruct (strip_prefix _ s) as [s1|] eqn:Hs; [|done].
  apply strip_prefix_Some in Hs as ->.
  destruct (span (char_eqb 61) s1) as [eqs s2] eqn:He.
  apply span_eq in He as (-> & Heqs & _).
  intros [Hne Hws]%andb_true_iff.
  apply negb_true_iff, string_eqb_neq in Hne. apply string_eqb_eq in Hws.
  exists eqs, s2. split_and!; [done|done|by apply Forall_char_eqb|].
  unfold skip_while in Hws. pose proof (span_app is_space s2) as Happ.
  pose proof (span_Forall is_space s2) as Hall.
  rewrite Hws, app_nil_r in Happ. by rewrite Happ in Hall.
Qed.

Lemma lazy_name_inv s name :
  lazy_name s = Some name →
  name ≠ [] ∧ Forall (λ c, is_line_terminator c = false) name
  ∧ ∃ t, s = name ++ t ∧ banner_tail t = true.
Proof.
  revert name. induction s as [|c s IH]; intros name; simpl; [done|].
  destruct (is_line_terminator c) eqn:Hc; [done|].
  destruct (banner_tail s) eqn:Ht.
  - intros [= <-]. split_and!; [done|by repeat constructor|by exists s].
  - destruct (lazy_name s) as [n|]; [|done]. intros [= <-].
    destruct (IH n eq_refl) as (_ & Hn & t & -> & Ht').
    split_and!; [done|by constructor|by exists t].
Qed.

(** X2. A line the banner pattern accepts has the banner shape, and the
    name it yields is not empty and holds no line terminator. *)
Theorem banner_shape line name :
  SECTION_BANNER_RE line = Some name →
  name ≠ [] ∧ Forall (λ c, is_line_terminator c = false) name
  ∧ ∃ ws eqs eqs' ws',
      line = ws ++ lit "// " ++ eqs ++ lit " " ++ name ++ lit " " ++ eqs' ++ ws'
      ∧ Forall (λ c, is_space c = true) ws
      ∧ eqs ≠ [] ∧ Forall (λ c, c = 61) eqs
      ∧ eqs' ≠ [] ∧ Forall (λ c, c = 61) eqs'
      ∧ Forall (λ c, is_space c = true) ws'.
Proof.
  unfold SECTION_BANNER_RE, skip_while.
  destruct (span is_space line) as [ws s0] eqn:Hws.
  apply span_eq in Hws as (-> & Hws & _). cbn [snd].
  destruct (strip_prefix _ s0) as [s1|] eqn:Hs1; [|done].
  apply strip_prefix_Some in Hs1 as ->. cbn [mbind option_bind].
  destruct (span (char_eqb 61) s1) as [eqs s2] eqn:He.
  apply span_eq in He as (-> & Heqs & _).
  destruct (string_eqb eqs []) eqn:Hne; [done|]. apply string_eqb_neq in Hne.
  destruct (strip_prefix _ s2) as [s3|] eqn:Hs3; [|done].
  apply strip_prefix_Some in Hs3 as ->. cbn [mbind option_bind].
  intros (Hname & Hlt & t & -> & Ht)%lazy_name_inv.
  apply banner_tail_inv in Ht as (eqs' & ws' & -> & Hne' & Heqs' & Hws').
  split_and!; [done..|].
  exists ws, eqs, eqs', ws'. split_and!; try done. by apply Forall_char_eqb.
Qed.

Lemma banner_shape_witness :
  lit "STATE" ≠ [] ∧ Forall (λ c, is_line_terminator c = false) (lit "STATE").
Proof.
  destruct (banner_shape (lit "  // == STATE ==") (lit "STATE")) as (H1 & H2 & _).
  - vm_compute. reflexivity.
  - split; [exact H1|exact H2].
Defined.

(** *** Extras: the parser *)

Lemma split_nl_head l rest :
  NL ∉ l → split_nl (l ++ NL :: rest) = l :: split_nl rest.
Proof.
  induction l as [|c l IH]; intros Hl; simpl.
  - done.
  - apply not_elem_of_cons in Hl as [Hc Hl].
    destruct (char_eqb c NL) eqn:E; [by apply char_eqb_eq in E|].
    by rewrite IH.
Qed.

Lemma split_nl_line l : NL ∉ l → split_nl l = [l].
Proof.
  induction l as [|c l IH]; intros Hl; simpl; [done|].
  apply not_elem_of_cons in Hl as [Hc Hl].
  destruct (char_eqb c NL) eqn:E; [by apply char_eqb_eq in E|].
  by rewrite IH.
Qed.

(** [join] then [split] gives the lines back, when there is a line and no
    line holds a newline. *)
Lemma split_join ls :
  ls ≠ [] → Forall (λ l, NL ∉ l) ls → split_nl (join_nl ls) = ls.
Proof.
  intros Hne Hls. induction Hls as [|l ls Hl Hls IH]; [done|].
  destruct ls as [|l' ls].
  - simpl. by apply split_nl_line.
  - rewrite join_nl_cons by done. rewrite split_nl_head by done.
    by rewrite IH.
Qed.

Lemma split_nl_no_NL s : Forall (λ l, NL ∉ l) (split_nl s).
Proof.
  induction s as [|c s IH]; simpl.
  - repeat constructor. apply not_elem_of_nil.
  - destruct (char_eqb c NL) eqn:E.
    + constructor; [apply not_elem_of_nil|done].
    + destruct (split_nl s) as [|l ls] eqn:Hs; [by destruct (split_nl_not_nil s)|].
      apply Forall_cons in IH as [Hl Hls]. constructor; [|done].
      apply not_elem_of_cons. split; [|done]. intros <-.
      unfold char_eqb in E. by rewrite N.eqb_refl in E.
Qed.

Lemma parse_loop_preamble lines pre :
  Forall (λ l, SECTION_BANNER_RE l = None) lines →
  parse_loop lines (mkParseState [] None pre [] true)
  = mkParseState [] None (pre ++ lines) [] true.
Proof.
  intros Hl. revert pre. induction Hl as [|l lines Hl _ IH]; intros pre; simpl.
  - by rewrite app_nil_r.
  - rewrite Hl. unfold push. simpl. by rewrite IH, <- (assoc_L (++)).
Qed.

Lemma parse_loop_preamble_app lines rest pre :
  Forall (λ l, SECTION_BANNER_RE l = None) lines →
  parse_loop (lines ++ rest) (mkParseState [] None pre [] true)
  = parse_loop rest (mkParseState [] None (pre ++ lines) [] true).
Proof.
  intros Hl. revert pre. induction Hl as [|l lines Hl _ IH]; intros pre; simpl.
  - by rewrite app_nil_r.
  - rewrite Hl. unfold push. simpl. by rewrite IH, <- (assoc_L (++)).
Qed.

(** X3. A document without a banner line has no sections: all its lines
    are the preamble and there is no postamble, even when it holds the
    closing line of the script. *)
Theorem parse_without_banner html :
  Forall (λ l, SECTION_BANNER_RE l = None) (split_nl html) →
  parseIntoSections html = mkParsed (split_nl html) [] [].
Proof.
  intros Hl. unfold parseIntoSections, parse_init.
  by rewrite parse_loop_preamble.
Qed.

Lemma parse_without_banner_witness :
  parseIntoSections (lit "<script>
let a = 1;
</script>")
  = mkParsed [lit "<script>"; lit "let a = 1;"; lit "</script>"] [] [].
Proof.
  apply (parse_without_banner (lit "<script>
let a = 1;
</script>")).
  apply (bool_decide_unpack _). vm_compute. exact I.
Defined.

Lemma parse_loop_wf lines st :
  wf_state st →
  wf_parsed (mkParsed (st_preScriptLines (parse_loop lines st))
                      (push_current (parse_loop lines st))
                      (st_postScriptLines (parse_loop lines st))).
Proof.
  revert st. induction lines as [|line rest IH]; intros st (Hpre & Hsecs & Hpost & Hcur).
  { simpl. unfold wf_parsed; simpl. split_and!; [done|done|by left]. }
  unfold wf_parsed in *. simpl. destruct (SECTION_BANNER_RE line) as [name|] eqn:Hline.
  - apply IH. split_and!; try done.
    unfold push_current at 1; simpl. unfold push.
    apply Forall_app. split; [done|]. repeat constructor; done.
  - destruct (st_currentSection st) as [cur|] eqn:Hc.
    + unfold push_current in Hsecs. rewrite Hc in Hsecs. unfold push in Hsecs.
      destruct (string_eqb _ _) eqn:Ht.
      * apply string_eqb_eq in Ht. unfold push_current; simpl.
        split_and!; [done|done|]. right. split; [by destruct (st_sections st)|].
        by exists line, rest.
      * apply string_eqb_neq in Ht. apply IH. split_and!; try done.
        unfold push_current; simpl. unfold push.
        apply Forall_app in Hsecs as [Hs [[Hb Hbody] _]%Forall_cons].
        apply Forall_app. split; [done|]. repeat constructor; simpl; [done|].
        apply Forall_app. split; [done|]. by repeat constructor.
    + destruct (Hcur eq_refl) as [Hin Hs]. rewrite Hin.
      apply IH. split_and!; simpl; try done.
      * unfold push. apply Forall_app. split; [done|]. by repeat constructor.
      * unfold push_current in *. simpl. by rewrite Hc in Hsecs.
Qed.

Lemma parseIntoSections_wf html : wf_parsed (parseIntoSections html).
Proof. apply parse_loop_wf. by split_and!. Qed.

Lemma parseIntoSections_no_NL html :
  Forall (λ l, NL ∉ l)
    (allLines (preScriptLines (parseIntoSections html))
              (sections (parseIntoSections html))
              (postScriptLines (parseIntoSections html))).
Proof. rewrite parseIntoSections_lines. apply split_nl_no_NL. Qed.

(** X4. What every parse result satisfies: no preamble line is a banner;
    the banner line of each section yields its name; no body line is a
    banner or the closing line; and the postamble, when there is one,
    follows at least one section and starts with the closing line.  The
    lines hold no newline. *)
Theorem parse_well_formed html :
  wf_parsed (parseIntoSections html)
  ∧ Forall (λ l, NL ∉ l)
      (allLines (preScriptLines (parseIntoSections html))
                (sections (parseIntoSections html))
                (postScriptLines (parseIntoSections html))).
Proof.
  split; [apply parseIntoSections_wf|apply parseIntoSections_no_NL].
Qed.

Lemma section_eta s : mkSection (bannerLine s) (bannerName s) (bodyLines s) = s.
Proof. by destruct s. Qed.

(** Inside a section, body lines are appended to the current section. *)
Lemma parse_loop_body body rest secs cur pre ip :
  Forall body_line body →
  parse_loop (body ++ rest) (mkParseState secs (Some cur) pre [] ip)
  = parse_loop rest
      (mkParseState secs
         (Some (mkSection (bannerLine cur) (bannerName cur) (bodyLines cur ++ body)))
         pre [] ip).
Proof.
  intros Hbody. revert cur.
  induction Hbody as [|l body [Hl Ht] _ IH]; intros cur; simpl.
  - by rewrite app_nil_r, section_eta.
  - rewrite Hl, (proj2 (string_eqb_neq _ _) Ht). rewrite IH. simpl. unfold push.
    by rewrite <- (assoc_L (++)).
Qed.

Lemma parse_loop_sections secs rest st :
  Forall wf_section secs → st_postScriptLines st = [] →
  parse_loop ((secs ≫= section_lines) ++ rest) st = parse_loop rest (st_after st secs).
Proof.
  intros Hsecs. revert st.
  induction Hsecs as [|s secs [Hb Hbody] _ IH]; intros st Hpost; [done|].
  rewrite bind_cons, <- (assoc_L (++)). unfold section_lines at 1.
  cbn [app parse_loop]. rewrite Hb, Hpost.
  rewrite parse_loop_body by done. cbn [app bodyLines bannerLine bannerName].
  rewrite section_eta, IH by done. cbn [st_after]. by rewrite Hpost.
Qed.

Lemma push_current_st_after st secs :
  push_current (st_after st secs) = push_current st ++ secs.
Proof.
  revert st. induction secs as [|s secs IH]; intros st; simpl.
  - by rewrite app_nil_r.
  - rewrite IH. unfold push_current at 1; simpl. unfold push.
    by rewrite <- (assoc_L (++)).
Qed.

Lemma st_after_fields st secs :
  st_preScriptLines (st_after st secs) = st_preScriptLines st
  ∧ st_postScriptLines (st_after st secs) = st_postScriptLines st
  ∧ (secs ≠ [] → ∃ done cur, st_after st secs
        = mkParseState done (Some cur) (st_preScriptLines st)
                       (st_postScriptLines st) false).
Proof.
  revert st. induction secs as [|s secs IH]; intros st; simpl; [done|].
  destruct (IH {| st_sections := push_current st; st_currentSection := Some s;
                  st_preScriptLines := st_preScriptLines st;
                  st_postScriptLines := st_postScriptLines st;
                  st_inPreamble := false |}) as (Hpre & Hpost & Hcur).
  split_and!; [done|done|]. intros _.
  destruct (decide (secs = [])) as [->|Hne]; [simpl; eauto|exact (Hcur Hne)].
Qed.

Lemma parse_allLines pre secs post :
  wf_parsed (mkParsed pre secs post) →
  allLines pre secs post ≠ [] →
  Forall (λ l, NL ∉ l) (allLines pre secs post) →
  parseIntoSections (join_nl (allLines pre secs post)) = mkParsed pre secs post.
Proof.
  intros (Hpre & Hsecs & Hpost) Hne Hnl. simpl in *.
  unfold parseIntoSections. rewrite split_join by done. unfold allLines.
  unfold parse_init. rewrite (parse_loop_preamble_app pre _ []) by done.
  rewrite parse_loop_sections by done.
  set (st0 := mkParseState [] None ([] ++ pre) [] true).
  destruct (st_after_fields st0 secs) as (Hp & Hq & Hcur).
  pose proof (push_current_st_after st0 secs) as Hpush.
  destruct Hpost as [->|(Hsne & t & post' & -> & Ht & Htrim)].
  - simpl. by rewrite Hp, Hq, Hpush.
  - destruct (Hcur Hsne) as (d & c & Hst). rewrite Hst in *. simpl.
    rewrite Ht, (proj2 (string_eqb_eq _ _) Htrim). simpl.
    unfold push_current in Hpush. simpl in Hpush. unfold push in *.
    by rewrite Hpush.
Qed.

(** X5. Parsing undoes reassembly: lines that satisfy what the parser
    guarantees, and hold no newline, are parsed back into the same
    preamble, sections and postamble. *)
Theorem parse_reassembled pre secs post :
  wf_parsed (mkParsed pre secs post) →
  allLines pre secs post ≠ [] →
  Forall (λ l, NL ∉ l) (allLines pre secs post) →
  parseIntoSections (join_nl (allLines pre secs post)) = mkParsed pre secs post.
Proof. apply parse_allLines. Qed.

Lemma parse_reassembled_witness :
  parseIntoSections
    (join_nl [lit "<script>"; banner_of (lit "STATE"); lit "let s = 1;"; lit "</script>"])
  = mkParsed [lit "<script>"]
      [mkSection (banner_of (lit "STATE")) (lit "STATE") [lit "let s = 1;"]]
      [lit "</script>"].
Proof.
  apply (parse_reassembled [lit "<script>"]
           [mkSection (banner_of (lit "STATE")) (lit "STATE") [lit "let s = 1;"]]
           [lit "</script>"]).
  - split_and!.
    + repeat constructor.
    + repeat constructor. vm_compute. discriminate.
    + right. split; [discriminate|]. by exists (lit "</script>"), [].
  - discriminate.
  - apply (bool_decide_unpack _). vm_compute. exact I.
Defined.

(** X6. A change is read back as written: when the lines of the new
    content are neither banners nor the closing line, parsing the document
    that [applySectionChanges] returns gives the original preamble,
    sections and postamble with the body of the changed section replaced
    by these lines. *)
Theorem change_read_back html l1 s l2 id X :
  sections (parseIntoSections html) = l1 ++ s :: l2 →
  get_property SECTION_MAP id = JString (bannerName s) →
  Forall (λ a, bannerName a ≠ bannerName s) l1 →
  Forall body_line (split_nl X) →
  ∃ out,
    applySectionChanges html [mkChange id X] = Ok out
    ∧ parseIntoSections out
      = mkParsed (preScriptLines (parseIntoSections html))
                 (l1 ++ mkSection (bannerLine s) (bannerName s) (split_nl X) :: l2)
                 (postScriptLines (parseIntoSections html)).
Proof.
  intros Hsecs Hid Hl1 HX.
  pose proof (parseIntoSections_wf html) as (Hpre & Hwf & Hpost).
  pose proof (parseIntoSections_no_NL html) as Hnl.
  unfold applySectionChanges. rewrite Hsecs in *. cbn [apply_changes].
  rewrite (apply_change_first l1 s l2 id X Hid Hl1). eexists. split; [done|].
  apply Forall_app in Hwf as [Hwf1 [[Hb _] Hwf2]%Forall_cons].
  unfold allLines in Hnl. rewrite bind_app, bind_cons in Hnl.
  apply Forall_app in Hnl as [Hn1 Hnl]. apply Forall_app in Hnl as [Hnl Hn4].
  apply Forall_app in Hnl as [Hn2 Hnl]. apply Forall_app in Hnl as [Hns Hn3].
  apply Forall_cons in Hns as [Hnb _].
  apply parse_allLines.
  - split_and!; simpl; [done| |].
    + apply Forall_app. split; [done|]. by constructor.
    + destruct Hpost as [?|(_ & ?)]; [by left|right]. split; [|done].
      by destruct l1.
  - unfold allLines. rewrite bind_app, bind_cons. intros H%(f_equal length).
    rewrite !length_app in H. simpl in H. lia.
  - unfold allLines. rewrite bind_app, bind_cons.
    repeat (apply Forall_app; split); try done.
    constructor; [done|]. apply split_nl_no_NL.
Qed.

Lemma change_read_back_witness :
  ∃ out,
    applySectionChanges doc_abc [mkChange (lit "STATE") (lit "    let s = 2;")] = Ok out
    ∧ bannerName <$> sections (parseIntoSections out)
      = [lit "CONFIG"; lit "STATE"; lit "INIT"].
Proof.
  destruct (change_read_back doc_abc
              [mkSection (banner_of (lit "CONFIG")) (lit "CONFIG") [lit "    const a = {};"]]
              (mkSection (banner_of (lit "STATE")) (lit "STATE") [lit "    let s = 1;"])
              [mkSection (banner_of (lit "INIT")) (lit "INIT") [lit "    init();"]]
              (lit "STATE") (lit "    let s = 2;")) as (out & Hout & Hparse).
  - vm_compute. reflexivity.
  - vm_compute. reflexivity.
  - repeat constructor. vm_compute. discriminate.
  - change (split_nl (lit "    let s = 2;")) with [lit "    let s = 2;"].
    constructor; [|constructor]. split; vm_compute; [reflexivity|discriminate].
  - exists out. split; [exact Hout|]. rewrite Hparse. reflexivity.
Defined.

(** *** Extras: the applier *)

Lemma apply_change_Ok_iff a c : (∃ a', apply_change a c = Ok a') ↔ resolves a c.
Proof.
  unfold apply_change, resolves. split.
  - intros [a' H]. destruct (truthy _) eqn:Ht; [|done]. simpl in H.
    destruct (list_find _ a) as [[i s]|] eqn:Hf; [|done].
    apply list_find_Some in Hf as (Hi & Hs & _). unfold names in Hs.
    exists (bannerName s). split; [done|].
    apply list_elem_of_fmap. exists s. split; [done|]. by eapply list_elem_of_lookup_2.
  - intros (b & Hb & Hin). rewrite Hb, (SECTION_MAP_truthy _ _ Hb). simpl.
    apply list_elem_of_fmap in Hin as (s & -> & Hs).
    destruct (list_find_elem_of (names (JString (bannerName s))) a s Hs eq_refl)
      as [[i t] ->]. eauto.
Qed.

Lemma resolves_names a a' c :
  bannerName <$> a = bannerName <$> a' → resolves a c ↔ resolves a' c.
Proof. unfold resolves. by intros ->. Qed.

Lemma apply_change_keeps a c a' :
  apply_change a c = Ok a' →
  bannerName <$> a' = bannerName <$> a ∧ bannerLine <$> a' = bannerLine <$> a.
Proof.
  intros (i & _ & Hf)%apply_change_same_frame. by destruct Hf as (? & ? & _).
Qed.

Lemma apply_changes_Ok_iff a cs :
  (∃ a', apply_changes a cs = Ok a') ↔ Forall (resolves a) cs.
Proof.
  revert a. induction cs as [|c cs IH]; intros a; simpl.
  { split; [by constructor|by eauto]. }
  rewrite Forall_cons, <- apply_change_Ok_iff.
  destruct (apply_change a c) as [a1|e] eqn:Hc.
  - rewrite IH. destruct (apply_change_keeps _ _ _ Hc) as [Hn _].
    split.
    + intros H. split; [by eauto|].
      eapply Forall_impl; [exact H|]. intros c'. by apply resolves_names.
    + intros [_ H]. eapply Forall_impl; [exact H|]. intros c'. by apply resolves_names.
  - split; [by intros [? ?]|by intros [[? ?] _]].
Qed.

(** X7. [applySectionChanges] returns a document exactly when every change
    resolves: its identifier reads a banner text from the table and a
    section of the document carries that text.  Neither the order of the
    changes nor their content matters for that. *)
Theorem apply_succeeds_iff html cs :
  (∃ out, applySectionChanges html cs = Ok out)
  ↔ Forall (resolves (sections (parseIntoSections html))) cs.
Proof.
  rewrite <- apply_changes_Ok_iff. unfold applySectionChanges.
  destruct (apply_changes _ cs) as [a'|e]; split; intros [? ?]; by eauto.
Qed.

Lemma apply_changes_keeps a cs a' :
  apply_changes a cs = Ok a' →
  bannerName <$> a' = bannerName <$> a
  ∧ bannerLine <$> a' = bannerLine <$> a
  ∧ ∀ k, (∀ c, c ∈ cs → slot a (sectionName c) ≠ Some k) → a' !! k = a !! k.
Proof.
  revert a. induction cs as [|c cs IH]; intros a; simpl.
  { by intros [= <-]. }
  destruct (apply_change a c) as [a1|e] eqn:Hc; [|done]. intros H.
  destruct (IH _ H) as (Hn & Hl & Hk).
  destruct (apply_change_same_frame _ _ _ Hc) as (i & Hi & Hn1 & Hl1 & Hk1).
  split_and!; [congruence|congruence|].
  intros k Hcs. rewrite Hk.
  - apply Hk1. intros ->. eapply Hcs; [left|done].
  - intros c' Hc'. rewrite (apply_change_slot_stable _ _ _ _ Hc).
    apply Hcs. by right.
Qed.

(** X8. A successful application keeps the frame of the document: the
    sections are as many as before, with the same banner lines and names
    in the same order, and a section that no change lands on keeps its
    body. *)
Theorem apply_changes_preserves a cs a' :
  apply_changes a cs = Ok a' →
  length a' = length a
  ∧ bannerName <$> a' = bannerName <$> a
  ∧ bannerLine <$> a' = bannerLine <$> a
  ∧ ∀ k, (∀ c, c ∈ cs → slot a (sectionName c) ≠ Some k) → a' !! k = a !! k.
Proof.
  intros (Hn & Hl & Hk)%apply_changes_keeps. split_and!; try done.
  by rewrite <- (length_fmap bannerName a'), Hn, length_fmap.
Qed.

(** Two changes that land on different sections can be swapped. *)
Lemma apply_change_commute a x y a1 a2 :
  slot a (sectionName x) ≠ slot a (sectionName y) →
  apply_change a x = Ok a1 → apply_change a1 y = Ok a2 →
  ∃ b1, apply_change a y = Ok b1 ∧ apply_change b1 x = Ok a2.
Proof.
  intros Hne Hx Hy.
  destruct (apply_change_Ok _ _ _ Hx) as (i & s & Hi & Hs & ->).
  destruct (apply_change_Ok _ _ _ Hy) as (j & t & Hj & Ht & ->).
  rewrite (apply_change_slot_stable _ _ _ _ Hx) in Hj.
  assert (i ≠ j) as Hij by congruence.
  rewrite list_lookup_insert_ne in Ht by done.
  destruct (apply_change_same_frame _ _ _ Hx) as (i' & Hi' & Hframe).
  pose proof (apply_change_frame i' _ _ y Hframe) as Hpair. rewrite Hy in Hpair.
  destruct (apply_change a y) as [b1|] eqn:Hy'; [|done].
  destruct (apply_change_Ok _ _ _ Hy') as (j' & t' & Hj' & Ht' & ->).
  assert (j' = j) as -> by congruence. assert (t' = t) as -> by congruence.
  eexists. split; [done|].
  destruct (apply_change_same_frame _ _ _ Hy') as (j' & _ & Hframe').
  pose proof (apply_change_frame j' _ _ x Hframe') as Hpair'. rewrite Hx in Hpair'.
  destruct (apply_change (<[j:=_]> a) x) as [c1|] eqn:Hx'; [|done].
  destruct (apply_change_Ok _ _ _ Hx') as (i'' & s' & Hi'' & Hs' & ->).
  rewrite (apply_change_slot_stable _ _ _ _ Hy') in Hi''.
  assert (i'' = i) as -> by congruence.
  rewrite list_lookup_insert_ne in Hs' by done.
  assert (s' = s) as -> by congruence.
  by rewrite list_insert_insert_ne by done.
Qed.

Lemma apply_changes_permutation a cs cs' :
  cs ≡ₚ cs' →
  NoDup ((λ c, slot a (sectionName c)) <$> cs) →
  ∀ r, apply_changes a cs = Ok r ↔ apply_changes a cs' = Ok r.
Proof.
  intros Hperm. revert a.
  induction Hperm as [|x l l' _ IH|x y l|l l' l'' H1 IH1 H2 IH2]; intros a Hnd r.
  - done.
  - simpl. destruct (apply_change a x) as [a1|] eqn:Hx; [|done].
    apply IH. apply NoDup_cons in Hnd as [_ Hnd].
    erewrite list_fmap_ext; [exact Hnd|]. intros ???.
    by rewrite (apply_change_slot_stable _ _ _ _ Hx).
  - simpl in Hnd. apply NoDup_cons in Hnd as [Hyx _].
    assert (slot a (sectionName y) ≠ slot a (sectionName x)) as Hne
      by (intros Heq; apply Hyx; rewrite Heq; left).
    simpl. split.
    + destruct (apply_change a y) as [a1|] eqn:Hy; [|done].
      destruct (apply_change a1 x) as [a2|] eqn:Hx; [|done].
      destruct (apply_change_commute a y x a1 a2 Hne Hy Hx) as (b1 & -> & ->). done.
    + destruct (apply_change a x) as [a1|] eqn:Hx; [|done].
      destruct (apply_change a1 y) as [a2|] eqn:Hy; [|done].
      destruct (apply_change_commute a x y a1 a2 (not_eq_sym Hne) Hx Hy) as (b1 & -> & ->).
      done.
  - rewrite IH1 by done. apply IH2. by rewrite <- H1.
Qed.

(** X9. The order of changes that land on different sections does not
    matter: a reordered change list yields a document exactly when the
    original does, and then the same one. *)
Theorem apply_order_irrelevant html cs cs' out :
  cs ≡ₚ cs' →
  NoDup ((λ c, slot (sections (parseIntoSections html)) (sectionName c)) <$> cs) →
  applySectionChanges html cs = Ok out ↔ applySectionChanges html cs' = Ok out.
Proof.
  intros Hperm Hnd. unfold applySectionChanges.
  pose proof (apply_changes_permutation _ _ _ Hperm Hnd) as H.
  destruct (apply_changes _ cs) as [r|] eqn:Hr, (apply_changes _ cs') as [r'|] eqn:Hr'.
  - assert (r = r') as -> by (destruct (H r) as [H1 _]; by injection (H1 eq_refl)). done.
  - destruct (H r) as [H1 _]. discriminate (H1 eq_refl).
  - destruct (H r') as [_ H1]. discriminate (H1 eq_refl).
  - done.
Qed.

(** X10. The error of a failing application is that of the first change
    that does not resolve: the unknown-name error with its identifier when
    the table read is falsy, otherwise the section-not-found error with
    the value read.  The changes after it play no part. *)
Theorem first_unresolved_error html l1 c l2 :
  Forall (resolves (sections (parseIntoSections html))) l1 →
  ¬ resolves (sections (parseIntoSections html)) c →
  applySectionChanges html (l1 ++ c :: l2)
  = Err (if truthy (get_property SECTION_MAP (sectionName c))
         then SectionNotFound (get_property SECTION_MAP (sectionName c))
         else UnknownSectionName (sectionName c)).
Proof.
  intros Hl1 Hc. unfold applySectionChanges. rewrite apply_changes_app.
  apply apply_changes_Ok_iff in Hl1 as [s Hs]. rewrite Hs.
  destruct (apply_changes_keeps _ _ _ Hs) as (Hn & _).
  cbn [apply_changes]. unfold apply_change.
  destruct (truthy _) eqn:Ht; [|done]. simpl.
  destruct (list_find _ s) as [[i t]|] eqn:Hf; [|done].
  destruct Hc. apply list_find_Some in Hf as (Hi & Ht' & _). unfold names in Ht'.
  exists (bannerName t). split; [done|]. rewrite <- Hn.
  apply list_elem_of_fmap. exists t. split; [done|]. by eapply list_elem_of_lookup_2.
Qed.

Lemma apply_changes_preserves_witness :
  bannerName <$>
    [ mkSection (banner_of (lit "CONFIG")) (lit "CONFIG") [lit "a"];
      mkSection (banner_of (lit "STATE")) (lit "STATE") [lit "new"] ]
  = [lit "CONFIG"; lit "STATE"].
Proof.
  destruct (apply_changes_preserves
              [ mkSection (banner_of (lit "CONFIG")) (lit "CONFIG") [lit "a"];
                mkSection (banner_of (lit "STATE")) (lit "STATE") [lit "old"] ]
              [mkChange (lit "STATE") (lit "new")]
              [ mkSection (banner_of (lit "CONFIG")) (lit "CONFIG") [lit "a"];
                mkSection (banner_of (lit "STATE")) (lit "STATE") [lit "new"] ])
    as (_ & Hn & _).
  - vm_compute. reflexivity.
  - exact Hn.
Defined.

Lemma apply_order_irrelevant_witness :
  applySectionChanges doc_abc
    [mkChange (lit "INIT") (lit "go();"); mkChange (lit "STATE") (lit "let s = 2;")]
  = applySectionChanges doc_abc
      [mkChange (lit "STATE") (lit "let s = 2;"); mkChange (lit "INIT") (lit "go();")].
Proof.
  destruct (applySectionChanges doc_abc
              [mkChange (lit "STATE") (lit "let s = 2;"); mkChange (lit "INIT") (lit "go();")])
    as [out|e] eqn:Hout.
  - apply (apply_order_irrelevant doc_abc
             [mkChange (lit "STATE") (lit "let s = 2;"); mkChange (lit "INIT") (lit "go();")]
             [mkChange (lit "INIT") (lit "go();"); mkChange (lit "STATE") (lit "let s = 2;")]
             out).
    + apply perm_swap.
    + apply (bool_decide_unpack _). vm_compute. exact I.
    + exact Hout.
  - vm_compute in Hout. discriminate Hout.
Defined.

Lemma first_unresolved_error_witness :
  applySectionChanges doc_abc
    [mkChange (lit "STATE") (lit "x"); mkChange (lit "HUD") (lit "y");
     mkChange (lit "NOPE") (lit "z")]
  = Err (SectionNotFound (JString (lit "HUD"))).
Proof.
  apply (first_unresolved_error doc_abc [mkChange (lit "STATE") (lit "x")]
           (mkChange (lit "HUD") (lit "y")) [mkChange (lit "NOPE") (lit "z")]).
  - constructor; [|constructor]. exists (lit "STATE"). split.
    + vm_compute. reflexivity.
    + apply (bool_decide_unpack _). vm_compute. exact I.
  - intros (b & Hb & Hin). vm_compute in Hb. injection Hb as <-.
    revert Hin. apply (bool_decide_unpack _). vm_compute. exact I.
Defined.

(** *** Extras: the version token *)

Lemma first_version_eq s :
  first_version s = match version_at s with
                    | Some v => Some v
                    | None => match s with [] => None | _ :: s' => first_version s' end
                    end.
Proof. by destruct s. Qed.

Lemma version_at_inv s v :
  version_at s = Some v →
  version_shaped v ∧ ∃ d b, s = VERSION_PREFIX ++ d :: b ∧ is_digit d = true.
Proof.
  unfold version_at. destruct (strip_prefix VERSION_PREFIX s) as [s1|] eqn:Hs; [|done].
  apply strip_prefix_Some in Hs as ->. cbn [mbind option_bind].
  destruct (span is_digit s1) as [major s2] eqn:H1.
  apply span_eq in H1 as (-> & Hmajor & _).
  destruct (string_eqb major []) eqn:Hm; [done|]. apply string_eqb_neq in Hm.
  destruct (strip_prefix (lit ".") s2) as [s3|] eqn:Hs3; [|done].
  apply strip_prefix_Some in Hs3 as ->. cbn [mbind option_bind].
  destruct (span is_digit s3) as [minor s4] eqn:H2.
  apply span_eq in H2 as (-> & Hminor & _).
  destruct (string_eqb minor []) eqn:Hn; [done|]. apply string_eqb_neq in Hn.
  intros [= <-]. split.
  - by exists major, minor.
  - destruct major as [|d major]; [done|]. apply Forall_cons in Hmajor as [Hd _].
    by exists d, (major ++ lit "." ++ minor ++ s4).
Qed.

Lemma is_digit_dd d : is_digit d = true → is_digit_or_dot d = true.
Proof. unfold is_digit_or_dot. by intros ->. Qed.

Lemma version_at_token s v : version_at s = Some v → is_Some (token_at s).
Proof.
  intros (_ & d & b & -> & Hd)%version_at_inv. by apply token_at_start, is_digit_dd.
Qed.

Lemma first_version_shaped s v : first_version s = Some v → version_shaped v.
Proof.
  induction s as [|c s IH]; rewrite first_version_eq.
  - destruct (version_at []) eqn:H; [|done]. intros [= <-].
    by destruct (version_at_inv _ _ H).
  - destruct (version_at (c :: s)) eqn:H; [|done]. intros [= <-].
    by destruct (version_at_inv _ _ H).
Qed.

(** X11. The version [getCurrentVersion] returns always has the shape
    digits, dot, digits, whatever the document holds. *)
Theorem current_version_shaped html : version_shaped (getCurrentVersion html).
Proof.
  unfold getCurrentVersion. destruct (first_version html) as [v|] eqn:Hv.
  - by eapply first_version_shaped.
  - exists (lit "0"), (lit "00"). split_and!; try done; by repeat constructor.
Qed.

Lemma first_version_occurs s v : first_version s = Some v → occurs s.
Proof.
  induction s as [|c s IH]; rewrite first_version_eq.
  - destruct (version_at []) eqn:H; [|done]. intros _.
    destruct (version_at_token _ _ H) as [m Hm]. by eapply token_at_occurs.
  - destruct (version_at (c :: s)) eqn:H.
    + intros _. destruct (version_at_token _ _ H) as [m Hm]. by eapply token_at_occurs.
    + intros Hs. by apply (occurs_suffix [c]), IH.
Qed.

Lemma update_without_token html newVersion :
  ¬ occurs html → updateVersionString html newVersion = html.
Proof.
  intros Hfree. unfold updateVersionString.
  rewrite <- (app_nil_r html) at 1. rewrite replace_tokens_plain.
  - simpl. by rewrite app_nil_r.
  - intros u c v ->. rewrite app_nil_r. by eapply not_occurs_suffix.
Qed.

(** X12. In a document in which the label [Arena Survivor v] is nowhere
    followed by a digit or a dot, so that the rewrite pattern matches
    nowhere, a rewrite records no version: [getCurrentVersion] answers
    [0.00] before the rewrite and after it, whatever the new version.  (A
    label followed by digits without a dot, as in [Arena Survivor v7],
    has no version for [getCurrentVersion] either, but the rewrite matches
    it: such a document is outside this property.) *)
Theorem version_not_recorded html newVersion :
  ¬ occurs html →
  getCurrentVersion html = lit "0.00"
  ∧ getCurrentVersion (updateVersionString html newVersion) = lit "0.00".
Proof.
  intros Hfree. rewrite update_without_token by done.
  unfold getCurrentVersion. destruct (first_version html) as [v|] eqn:Hv; [|done].
  by apply first_version_occurs in Hv.
Qed.

Lemma version_not_recorded_witness :
  getCurrentVersion (updateVersionString (lit "<title>Arena Survivor</title>") (lit "1.00"))
  = lit "0.00".
Proof.
  apply (version_not_recorded (lit "<title>Arena Survivor</title>") (lit "1.00")).
  intros H%occurs_has_token. vm_compute in H. discriminate H.
Defined.

Lemma token_at_split s m :
  token_at s = Some m →
  ∃ run rest, s = VERSION_PREFIX ++ run ++ rest
              ∧ run ≠ [] ∧ Forall (λ c, is_digit_or_dot c = true) run
              ∧ ∀ d, head rest = Some d → is_digit_or_dot d = false.
Proof.
  unfold token_at. destruct (strip_prefix VERSION_PREFIX s) as [s1|] eqn:Hs; [|done].
  apply strip_prefix_Some in Hs as ->. cbn [mbind option_bind].
  destruct (span is_digit_or_dot s1) as [run rest] eqn:Hr.
  apply span_eq in Hr as (-> & Hrun & Hrest).
  destruct (string_eqb run []) eqn:Hne; [done|]. apply string_eqb_neq in Hne.
  intros _. by exists run, rest.
Qed.

Lemma token_at_app_None x y : token_at (x ++ y) = None → token_at x = None.
Proof.
  intros H. destruct (token_at x) as [m|] eqn:Hx; [|done].
  apply token_at_inv in Hx as (d & b & -> & Hd).
  rewrite <- (assoc_L (++)) in H. cbn [app] in H.
  destruct (token_at_start d (b ++ y) Hd) as [m' Hm']. congruence.
Qed.

(** A document with an occurrence splits at its first occurrence. *)
Lemma first_token_split s :
  has_token s = true →
  ∃ u run rest,
    s = u ++ VERSION_PREFIX ++ run ++ rest
    ∧ run ≠ [] ∧ Forall (λ c, is_digit_or_dot c = true) run
    ∧ (∀ d, head rest = Some d → is_digit_or_dot d = false)
    ∧ ∀ u1 c v, u = u1 ++ c :: v → token_at (c :: v) = None.
Proof.
  induction s as [|c s IH]; rewrite has_token_eq.
  - destruct (token_at []) as [m|] eqn:Hm; [|done]. intros _.
    by apply token_at_inv in Hm as (d & b & ? & _).
  - destruct (token_at (c :: s)) as [m|] eqn:Hm.
    + intros _. apply token_at_split in Hm as (run & rest & -> & ? & ? & ?).
      exists [], run, rest. split_and!; try done. by intros [] ??.
    + intros (u & run & rest & -> & ? & ? & ? & Hu)%IH.
      exists (c :: u), run, rest. split_and!; try done.
      intros [|c1 u1] c' v [= -> ->].
      * by eapply (token_at_app_None (c' :: v)).
      * by eapply Hu.
Qed.

Lemma has_token_false s :
  has_token s = false → ∀ u c v, s = u ++ c :: v → token_at (c :: v) = None.
Proof.
  induction s as [|c s IH]; rewrite has_token_eq; intros H u c' v Hs.
  - by destruct u.
  - destruct (token_at (c :: s)) eqn:Hm; [done|].
    destruct u as [|c1 u]; simplify_eq/=; [done|]. by eapply IH.
Qed.

Lemma GetSubstitution_prefix matched before after newVersion :
  GetSubstitution matched before after (VERSION_PREFIX ++ newVersion)
  = VERSION_PREFIX ++ GetSubstitution matched before after newVersion.
Proof. reflexivity. Qed.

(** What the scan does at a position, by cases. *)
Lemma replace_tokens_cons replacement before c s :
  token_at (c :: s) = None →
  replace_tokens replacement before 0 (c :: s)
  = c :: replace_tokens replacement (before ++ [c]) 0 s.
Proof. intros H. cbn [replace_tokens]. by rewrite H. Qed.

(** The rewritten text of a document that has an occurrence. *)
Lemma replace_tokens_first newVersion before s :
  has_token s = true →
  ∃ u run rest,
    s = u ++ VERSION_PREFIX ++ run ++ rest
    ∧ (∀ u1 c v, u = u1 ++ c :: v → token_at (c :: v) = None)
    ∧ (∀ d, head rest = Some d → is_digit_or_dot d = false)
    ∧ (length rest < length s)%nat
    ∧ replace_tokens (VERSION_PREFIX ++ newVersion) before 0 s
      = u ++ VERSION_PREFIX
          ++ GetSubstitution (VERSION_PREFIX ++ run) (before ++ u) rest newVersion
          ++ replace_tokens (VERSION_PREFIX ++ newVersion)
               ((before ++ u) ++ VERSION_PREFIX ++ run) 0 rest.
Proof.
  intros (u & run & rest & -> & Hne & Hrun & Hrest & Hu)%first_token_split.
  exists u, run, rest. split_and!; try done.
  - rewrite !length_app. simpl. lia.
  - rewrite replace_tokens_plain.
    + rewrite replace_tokens_token, GetSubstitution_prefix by done.
      by rewrite <- !(assoc_L (++)).
    + intros u1 c v Hu1. by eapply token_at_before_prefix, Hu.
Qed.

(** The rewritten text starts with a digit or dot only if the text does. *)
Lemma replace_tokens_head newVersion before s :
  (∀ d, head s = Some d → is_digit_or_dot d = false) →
  ∀ d, head (replace_tokens (VERSION_PREFIX ++ newVersion) before 0 s) = Some d →
       is_digit_or_dot d = false.
Proof.
  intros Hs d. destruct s as [|c s]; [done|]. cbn [replace_tokens].
  destruct (token_at (c :: s)).
  - rewrite GetSubstitution_prefix. by intros [= <-].
  - simpl. apply Hs.
Qed.

(** The rewrite creates no occurrence where there was none. *)
Lemma token_at_rewritten newVersion before c s :
  token_at (c :: s) = None →
  token_at (c :: replace_tokens (VERSION_PREFIX ++ newVersion) before 0 s) = None.
Proof.
  intros Hc. destruct (has_token s) eqn:Hs.
  - destruct (replace_tokens_first newVersion before s Hs)
      as (u & run & rest & -> & Hu & _ & _ & ->).
    change (c :: u ++ ?x) with ((c :: u) ++ x) in Hc.
    apply token_at_app_None in Hc. by apply token_at_before_prefix.
  - rewrite <- (app_nil_r s) at 1. rewrite replace_tokens_plain.
    + simpl. by rewrite app_nil_r.
    + intros u c' v ->. rewrite app_nil_r. by eapply has_token_false.
Qed.

Lemma dd_no_dollar v : Forall (λ c, is_digit_or_dot c = true) v → DOLLAR ∉ v.
Proof.
  intros Hv Hin. rewrite Forall_forall in Hv. by apply Hv in Hin.
Qed.

(** Rewriting a rewritten document, for versions without [$], the first
    of them a run of digits and dots. *)
Lemma replace_tokens_twice v1 v2 n :
  v1 ≠ [] → Forall (λ c, is_digit_or_dot c = true) v1 → DOLLAR ∉ v2 →
  ∀ s b1 b2 b3, (length s ≤ n)%nat →
    replace_tokens (VERSION_PREFIX ++ v2) b2 0
      (replace_tokens (VERSION_PREFIX ++ v1) b1 0 s)
    = replace_tokens (VERSION_PREFIX ++ v2) b3 0 s.
Proof.
  intros Hne Hv1 Hv2. pose proof (dd_no_dollar _ Hv1) as Hd1.
  induction n as [|n IH]; intros s b1 b2 b3 Hn.
  { destruct s; [done|simpl in Hn; lia]. }
  destruct s as [|c s]; [done|].
  destruct (token_at (c :: s)) as [m|] eqn:Hm.
  - apply token_at_split in Hm as (run & rest & Hs & Hrne & Hrun & Hrest).
    rewrite Hs. rewrite !replace_tokens_token by done.
    rewrite !GetSubstitution_prefix, !GetSubstitution_plain by done.
    rewrite <- (assoc_L (++)).
    rewrite replace_tokens_token by (try done; by apply replace_tokens_head).
    rewrite GetSubstitution_prefix, GetSubstitution_plain by done.
    f_equal. apply IH.
    apply (f_equal length) in Hs. rewrite !length_app in Hs. simpl in *. lia.
  - rewrite !replace_tokens_cons by (try done; by apply token_at_rewritten).
    f_equal. apply IH. simpl in Hn. lia.
Qed.

(** X13. Rewrites compose: rewriting to a version made of digits and dots
    and then to a version without [$] gives what rewriting to the second
    version alone gives. *)
Theorem version_rewrite_twice html v1 v2 :
  v1 ≠ [] → Forall (λ c, is_digit_or_dot c = true) v1 → DOLLAR ∉ v2 →
  updateVersionString (updateVersionString html v1) v2 = updateVersionString html v2.
Proof.
  intros Hne Hv1 Hv2. unfold updateVersionString.
  by apply (replace_tokens_twice v1 v2 (length html)).
Qed.

Lemma version_rewrite_twice_witness :
  updateVersionString
    (updateVersionString (lit "<title>Arena Survivor v0.00</title>") (lit "0.01"))
    (lit "0.02")
  = updateVersionString (lit "<title>Arena Survivor v0.00</title>") (lit "0.02").
Proof.
  apply version_rewrite_twice.
  - discriminate.
  - apply (bool_decide_unpack _). vm_compute. exact I.
  - apply (bool_decide_unpack _). vm_compute. exact I.
Defined.

Lemma first_version_skip u X :
  (∀ u1 c v, u = u1 ++ c :: v → version_at (c :: v ++ X) = None) →
  first_version (u ++ X) = first_version X.
Proof.
  induction u as [|c u IH]; intros Hu; [done|].
  rewrite first_version_eq. cbn [app]. rewrite (Hu [] c u eq_refl).
  apply IH. intros u1 c' v ->. by apply (Hu (c :: u1)).
Qed.

Lemma version_at_None_of_token s : token_at s = None → version_at s = None.
Proof.
  intros H. destruct (version_at s) as [v|] eqn:Hv; [|done].
  destruct (version_at_token _ _ Hv) as [m Hm]. congruence.
Qed.

Lemma version_at_shaped major minor rest :
  major ≠ [] → Forall (λ c, is_digit c = true) major →
  minor ≠ [] → Forall (λ c, is_digit c = true) minor →
  (∀ d, head rest = Some d → is_digit d = false) →
  version_at (VERSION_PREFIX ++ (major ++ lit "." ++ minor) ++ rest)
  = Some (major ++ lit "." ++ minor).
Proof.
  intros Hm1 Hmajor Hm2 Hminor Hrest. unfold version_at.
  rewrite strip_prefix_app. cbn [mbind option_bind].
  rewrite <- !(assoc_L (++)).
  rewrite (span_run is_digit major) by (try done; by intros d [= <-]).
  rewrite (proj2 (string_eqb_neq major [])) by done.
  rewrite strip_prefix_app. cbn [mbind option_bind].
  rewrite (span_run is_digit minor) by done.
  by rewrite (proj2 (string_eqb_neq minor [])).
Qed.

Lemma version_shaped_dd v :
  version_shaped v → v ≠ [] ∧ Forall (λ c, is_digit_or_dot c = true) v.
Proof.
  intros (major & minor & -> & Hm1 & Hmajor & _ & Hminor). split.
  - by destruct major.
  - apply Forall_app. split; [|constructor; [done|]];
      (eapply Forall_impl; [done|]; apply is_digit_dd).
Qed.

(** X14. After a rewrite to a version of the shape digits, dot, digits, a
    document that held the version token reports the new version. *)
Theorem version_read_back html newVersion :
  occurs html → version_shaped newVersion →
  getCurrentVersion (updateVersionString html newVersion) = newVersion.
Proof.
  intros Hocc%occurs_has_token Hnv.
  destruct (version_shaped_dd _ Hnv) as [_ Hdd].
  destruct Hnv as (major & minor & -> & Hm1 & Hmajor & Hm2 & Hminor).
  unfold updateVersionString, getCurrentVersion.
  destruct (replace_tokens_first (major ++ lit "." ++ minor) [] html Hocc)
    as (u & run & rest & -> & Hu & Hrest & _ & ->).
  rewrite GetSubstitution_plain by by apply dd_no_dollar.
  rewrite first_version_skip.
  - rewrite first_version_eq, version_at_shaped; try done.
    intros d Hd. apply (replace_tokens_head _ _ _ Hrest) in Hd.
    destruct (is_digit d) eqn:E; [|done]. by rewrite (is_digit_dd _ E) in Hd.
  - intros u1 c v Hu1. apply version_at_None_of_token.
    by eapply token_at_before_prefix, Hu.
Qed.

Lemma version_read_back_witness :
  getCurrentVersion
    (updateVersionString (lit "<title>Arena Survivor v0.00</title>") (lit "1.00"))
  = lit "1.00".
Proof.
  apply version_read_back.
  - exists (lit "<title>"), 48, (lit ".00</title>"). split; reflexivity.
  - exists (lit "1"), (lit "00"). split_and!; try discriminate; try reflexivity.
    + apply (bool_decide_unpack _). vm_compute. exact I.
    + apply (bool_decide_unpack _). vm_compute. exact I.
Defined.

(** *** Extras: the validator *)

Lemma banner_errors_nil html banners :
  banner_errors html banners = [] ↔ Forall (λ b, includes html b = true) banners.
Proof.
  unfold banner_errors. induction banners as [|b banners IH].
  { split; [by constructor|done]. }
  rewrite bind_cons, Forall_cons, <- IH. destruct (includes html b); cbn [negb app].
  - split; [by intros ->|by intros [_ ->]].
  - split; [done|by intros [? _]].
Qed.

(** X15. [validate] returns no error exactly when both closing tags and
    every banner text of the table occur in the document, it has at most
    4000 lines, and the braces of its first script region, if there is
    one, balance. *)
Theorem validate_accepts_iff html :
  validate html = []
  ↔ includes html (lit "</script>") = true
    ∧ includes html (lit "</html>") = true
    ∧ Forall (λ b, includes html b = true) (Object_values SECTION_MAP)
    ∧ (length (split_nl html) ≤ MAX_LINES)%nat
    ∧ ∀ js, script_match html = Some js → count_braces js = 0%Z.
Proof.
  rewrite validate_checks, <- banner_errors_nil.
  destruct (includes html (lit "</script>")), (includes html (lit "</html>")),
    (banner_errors html _) as [|e es]; cbn [app];
    try (split; [done|by intros (? & ? & ? & _)]).
  case_bool_decide as Hlen; cbn [app].
  { split; [done|]. intros (_ & _ & _ & ? & _). lia. }
  destruct (script_match html) as [js|].
  - case_bool_decide as Hb.
    + split; [done|]. intros (_ & _ & _ & _ & H). by destruct Hb, (H js).
    + split; [|done]. intros _. split_and!; try done; [lia|].
      intros ? [= <-]. by destruct (decide (count_braces js = 0%Z)).
  - split; [|done]. intros _. split_and!; try done. lia.
Qed.

Lemma count_braces_from z js :
  foldl (fun braces ch =>
           let braces := if char_eqb ch 123 then (braces + 1)%Z else braces in
           if char_eqb ch 125 then (braces - 1)%Z else braces) z js
  = (z + Z.of_nat (length (filter (λ c : char16, c = 123%N) js))
       - Z.of_nat (length (filter (λ c : char16, c = 125%N) js)))%Z.
Proof.
  revert z. induction js as [|c js IH]; intros z; simpl; [lia|].
  rewrite IH, !filter_cons.
  destruct (char_eqb c 123) eqn:E1, (char_eqb c 125) eqn:E2;
    try apply char_eqb_eq in E1; try apply char_eqb_eq in E2; subst; try done;
    repeat case_decide; subst; try done; simpl;
    try (unfold char_eqb in *; rewrite N.eqb_refl in *; done); lia.
Qed.

(** X16. The brace counter is the number of opening braces minus the
    number of closing braces: it does not see the order of the braces, so
    any rearrangement of the script gives the same count. *)
Theorem brace_count_order_blind js :
  count_braces js
  = (Z.of_nat (length (filter (λ c : char16, c = 123%N) js))
     - Z.of_nat (length (filter (λ c : char16, c = 125%N) js)))%Z
  ∧ ∀ js', js ≡ₚ js' → count_braces js' = count_braces js.
Proof.
  unfold count_braces. split.
  - rewrite count_braces_from. apply Z.add_0_l.
  - intros js' Hp. rewrite !count_braces_from. by rewrite Hp.
Qed.

Lemma starts_with_app t x y : starts_with t x = true → starts_with t (x ++ y) = true.
Proof.
  unfold starts_with. destruct (strip_prefix t x) as [r|] eqn:Hr; [|done].
  apply strip_prefix_Some in Hr as ->. by rewrite <- (assoc_L (++)), strip_prefix_app.
Qed.

Lemma includes_eq s sub :
  includes s sub
  = starts_with sub s || match s with [] => false | _ :: s' => includes s' sub end.
Proof. by destruct s. Qed.

Lemma includes_middle a t b : includes (a ++ t ++ b) t = true.
Proof.
  induction a as [|c a IH]; rewrite includes_eq.
  - cbn [app]. unfold starts_with. by rewrite strip_prefix_app.
  - cbn [app]. rewrite IH. apply orb_true_r.
Qed.

Lemma until_close_inv s js :
  until_close s = Some js →
  (∃ b, s = js ++ lit "</script>" ++ b) ∧ includes js (lit "</script>") = false.
Proof.
  revert js. induction s as [|c s IH]; intros js; simpl.
  - by destruct (starts_with (lit "</script>") []).
  - destruct (starts_with (lit "</script>") (c :: s)) eqn:H.
    + intros [= <-]. split; [|done]. unfold starts_with in H.
      destruct (strip_prefix _ (c :: s)) as [b|] eqn:Hb; [|done].
      apply strip_prefix_Some in Hb. by exists b.
    + destruct (until_close s) as [js'|]; [|done]. intros [= <-].
      destruct (IH js' eq_refl) as [[b ->] Hinc]. split; [by exists b|].
      rewrite includes_eq, Hinc, orb_false_r.
      destruct (starts_with (lit "</script>") (c :: js')) eqn:H'; [|done].
      apply (starts_with_app _ _ (lit "</script>" ++ b)) in H'.
      cbn [app] in H'. congruence.
Qed.

Lemma script_match_eq s :
  script_match s
  = match strip_prefix (lit "<script>") s ≫= until_close with
    | Some js => Some js
    | None => match s with [] => None | _ :: s' => script_match s' end
    end.
Proof. by destruct s. Qed.

Lemma script_match_inv s js :
  script_match s = Some js →
  (∃ a b, s = a ++ lit "<script>" ++ js ++ lit "</script>" ++ b)
  ∧ includes js (lit "</script>") = false.
Proof.
  induction s as [|c s IH]; rewrite script_match_eq.
  - done.
  - destruct (strip_prefix _ (c :: s)) as [s1|] eqn:Hs1; cbn [mbind option_bind].
    + apply strip_prefix_Some in Hs1.
      destruct (until_close s1) as [js'|] eqn:Hu.
      * intros [= <-]. destruct (until_close_inv _ _ Hu) as [[b ->] Hinc].
        split; [|done]. exists [], b. by rewrite Hs1.
      * intros [(a & b & ->) Hinc]%IH. split; [|done]. by exists (c :: a), b.
    + intros [(a & b & ->) Hinc]%IH. split; [|done]. by exists (c :: a), b.
Qed.

(** X17. The script region that the brace check reads lies between an
    opening tag and the first closing tag after it: it holds no closing
    tag itself. *)
Theorem script_region_shape html js :
  script_match html = Some js →
  (∃ a b, html = a ++ lit "<script>" ++ js ++ lit "</script>" ++ b)
  ∧ includes js (lit "</script>") = false.
Proof. apply script_match_inv. Qed.

Lemma script_region_shape_witness :
  includes (lit "let a = {};") (lit "</script>") = false.
Proof.
  apply (script_region_shape
           (lit "<html><script>let a = {};</script><script>}</script></html>")
           (lit "let a = {};")).
  vm_compute. reflexivity.
Defined.

Lemma msg_braces_head z : head (msg_braces z) = Some 66.
Proof. reflexivity. Qed.

Lemma banner_errors_head html banners e :
  e ∈ banner_errors html banners → head e = Some 77.
Proof.
  unfold banner_errors. intros (b & He & _)%list_elem_of_bind.
  destruct (negb _); [|by apply elem_of_nil in He].
  by apply list_elem_of_singleton in He as ->.
Qed.

(** X18. When the closing tag of the script is missing there is no script
    region, so a brace imbalance is never reported: the report about the
    missing tag stands alone for the script. *)
Theorem no_closing_tag_no_brace_report html :
  includes html (lit "</script>") = false →
  script_match html = None ∧ ∀ braces, msg_braces braces ∉ validate html.
Proof.
  intros Hinc.
  assert (script_match html = None) as Hnone.
  { destruct (script_match html) as [js|] eqn:Hjs; [|done].
    apply script_match_inv in Hjs as [(a & b & ->) _].
    rewrite (assoc_L (++) _ js), (assoc_L (++) a) in Hinc.
    by rewrite includes_middle in Hinc. }
  split; [done|]. intros z. rewrite validate_checks, Hnone, Hinc.
  rewrite !elem_of_app. intros [H|[H|[H|[H|H]]]].
  - by apply list_elem_of_singleton, (f_equal head) in H.
  - destruct (includes html (lit "</html>")); [by apply elem_of_nil in H|].
    by apply list_elem_of_singleton, (f_equal head) in H.
  - apply banner_errors_head in H. by rewrite msg_braces_head in H.
  - case_bool_decide; [|by apply elem_of_nil in H].
    by apply list_elem_of_singleton, (f_equal head) in H.
  - by apply elem_of_nil in H.
Qed.

Lemma no_closing_tag_no_brace_report_witness :
  script_match (lit "<html><script>let a = {;</html>") = None.
Proof.
  apply (no_closing_tag_no_brace_report (lit "<html><script>let a = {;</html>")).
  vm_compute. reflexivity.
Defined.

(** *** Extras: the orchestrator *)

Lemma check_files_cases paths w :
  check_files paths w = (Return tt, w) ∧ Forall (λ p, is_Some (fs w !! p)) paths
  ∨ check_files paths w = (Exited 1, w) ∧ ∃ p, p ∈ paths ∧ fs w !! p = None.
Proof.
  induction paths as [|p paths IH]; simpl.
  { left. by split. }
  unfold bind, existsSync. case_bool_decide as Hp.
  - destruct IH as [[-> Hall]|[-> (q & Hq & Hnone)]].
    + left. split; [done|by constructor].
    + right. split; [done|]. exists q. split; [by right|done].
  - right. split; [done|]. exists p. split; [left|].
    by apply eq_None_not_Some.
Qed.

Lemma prepare_missing env w :
  check_files (FILES env) w = (Exited 1, w) → prepare env w = (Exited 1, w).
Proof. intros H. unfold prepare. unfold mbind at 1, M_bind, bind at 1. by rewrite H. Qed.

Lemma prepare_present env w dna ref subs idx :
  fs w !! FILES_dna env = Some dna → fs w !! FILES_reference env = Some ref →
  fs w !! FILES_submissions env = Some subs → fs w !! FILES_index env = Some idx →
  prepare env w = prepare_read env w dna ref subs idx.
Proof.
  intros Hdna Href Hsubs Hidx. unfold prepare, prepare_read, proposal.
  unfold mbind at 1, M_bind, bind at 1.
  destruct (check_files_cases (FILES env) w) as [[-> _]|[_ (p & Hp & Hnone)]].
  - unfold bind, readFileSync. rewrite Hdna, Href, Hsubs, Hidx.
    case_bool_decide; [done|]. destruct (negb _); [done|].
    unfold mbind, M_bind, bind, emit, push, process_exit, ret. simpl.
    destruct (messages_create env _) as [|content]; [done|].
    destruct (find_tool_use content) as [m|]; [|done].
    by destruct (applySectionChanges idx (sectionChanges m)).
  - unfold FILES in Hp. rewrite !elem_of_cons in Hp.
    destruct Hp as [->|[->|[->|[->|Hp]]]]; [congruence..|by apply elem_of_nil in Hp].
Qed.

(** How steps 1 to 5 end, and what each ending means. *)
Lemma prepare_cases env w :
  (prepare env w = (Exited 1, w)
   ∧ ((∃ p, p ∈ FILES env ∧ fs w !! p = None)
      ∨ (∃ subs, fs w !! FILES_submissions env = Some subs
                 ∧ filter (λ l, is_submission l = true) (split_nl subs) = [])
      ∨ ANTHROPIC_API_KEY env = None ∨ ANTHROPIC_API_KEY env = Some []))
  ∨ (∃ req indexHtml,
       fs w !! FILES_index env = Some indexHtml
       ∧ ((prepare env w = (Exited 1, mkWorld (fs w) (trace w ++ [EApiCall req]))
           ∧ (proposal env req = None
              ∨ ∃ m e, proposal env req = Some m
                       ∧ applySectionChanges indexHtml (sectionChanges m) = Err e))
          ∨ ∃ m patched,
              proposal env req = Some m
              ∧ applySectionChanges indexHtml (sectionChanges m) = Ok patched
              ∧ prepare env w
                = (Return (mkPrepared (getCurrentVersion indexHtml) m
                             (updateVersionString patched (versionNumber m))),
                   mkWorld (fs w) (trace w ++ [EApiCall req])))).
Proof.
  destruct (check_files_cases (FILES env) w) as [[_ Hall]|[Hc Hmiss]];
    [|left; split; [by apply prepare_missing|by left]].
  apply Forall_cons in Hall as [[dna Hdna] Hall].
  apply Forall_cons in Hall as [[ref Href] Hall].
  apply Forall_cons in Hall as [[subs Hsubs] Hall].
  apply Forall_cons in Hall as [[idx Hidx] _].
  rewrite (prepare_present env w dna ref subs idx) by done. unfold prepare_read.
  case_bool_decide as Hlen.
  { left. split; [done|]. right; left. exists subs. split; [done|].
    by apply length_zero_iff_nil. }
  destruct (ANTHROPIC_API_KEY env) as [key|] eqn:Hkey; simpl;
    [|left; split; [done|by right; right; left]].
  destruct (string_eqb key []) eqn:Hk; simpl.
  { apply string_eqb_eq in Hk as ->. left. split; [done|by right; right; right]. }
  right. eexists _, idx. split; [done|].
  destruct (proposal env _) as [m|] eqn:Hprop; [|left; split; [done|left; exact Hprop]].
  destruct (applySectionChanges idx (sectionChanges m)) as [patched|e] eqn:Happ.
  - right. exists m, patched. split; [exact Hprop|done].
  - left. split; [done|]. right. exists m, e. split; [exact Hprop|done].
Qed.

(** X19. A missing input file ends the run at once: exit code 1, no call
    to the service, no event, every file as it was. *)
Theorem missing_file_stops env w path :
  path ∈ FILES env → fs w !! path = None → main env w = (Exited 1, w).
Proof.
  intros Hin Hnone. apply main_body_not_prepared, prepare_missing.
  destruct (check_files_cases (FILES env) w) as [[_ Hall]|[-> _]]; [|done].
  rewrite Forall_forall in Hall. apply Hall in Hin as [? ?]. congruence.
Qed.

Lemma missing_file_stops_witness :
  main (env_example false (lit "MINOR")) (mkWorld ∅ [])
  = (Exited 1, mkWorld ∅ []).
Proof.
  apply (missing_file_stops _ _ (lit "/game/index.html")).
  - apply (bool_decide_unpack _). vm_compute. exact I.
  - reflexivity.
Defined.

(** X20. Without a submission line (a line that is not blank and starts
    neither with [#] nor with [<!--]) the run ends before the service is
    called: exit code 1, no event, every file as it was. *)
Theorem no_submission_stops env w subs :
  fs w !! FILES_submissions env = Some subs →
  filter (λ l, is_submission l = true) (split_nl subs) = [] →
  main env w = (Exited 1, w).
Proof.
  intros Hsubs Hnone. apply main_body_not_prepared.
  destruct (check_files_cases (FILES env) w) as [[_ Hall]|[Hc _]];
    [|by apply prepare_missing].
  apply Forall_cons in Hall as [[dna Hdna] Hall].
  apply Forall_cons in Hall as [[ref Href] Hall].
  apply Forall_cons in Hall as [_ Hall].
  apply Forall_cons in Hall as [[idx Hidx] _].
  rewrite (prepare_present env w dna ref subs idx) by done.
  unfold prepare_read. by rewrite Hnone.
Qed.

Lemma no_submission_stops_witness :
  main (env_example false (lit "MINOR"))
       (mkWorld (<[lit "/game/submissions.md" := lit "# Submissions

<!-- one per line -->"]> (fs (world_example doc_full))) [])
  = (Exited 1,
     mkWorld (<[lit "/game/submissions.md" := lit "# Submissions

<!-- one per line -->"]> (fs (world_example doc_full))) []).
Proof.
  apply (no_submission_stops _ _ (lit "# Submissions

<!-- one per line -->")).
  - vm_compute. reflexivity.
  - vm_compute. reflexivity.
Defined.

(** X21. Without an API key (unset or empty) the run ends before the
    service is called, whatever the files hold: exit code 1, no event,
    every file as it was. *)
Theorem no_api_key_stops env w :
  ANTHROPIC_API_KEY env = None ∨ ANTHROPIC_API_KEY env = Some [] →
  main env w = (Exited 1, w).
Proof.
  intros Hkey. apply main_body_not_prepared.
  destruct (check_files_cases (FILES env) w) as [[_ Hall]|[Hc _]];
    [|by apply prepare_missing].
  apply Forall_cons in Hall as [[dna Hdna] Hall].
  apply Forall_cons in Hall as [[ref Href] Hall].
  apply Forall_cons in Hall as [[subs Hsubs] Hall].
  apply Forall_cons in Hall as [[idx Hidx] _].
  rewrite (prepare_present env w dna ref subs idx) by done.
  unfold prepare_read. case_bool_decide; [done|]. by destruct Hkey as [-> | ->].
Qed.

Lemma no_api_key_stops_witness :
  main (mkEnv false (lit "/game") None None (λ _, ApiRejects) (λ _, false) (λ _, false))
       (world_example doc_full)
  = (Exited 1, world_example doc_full).
Proof. apply no_api_key_stops. left. reflexivity. Defined.

Lemma run_events_app env w events :
  trace (main env w).2 = trace w ++ events → run_events env w = events.
Proof. intros H. unfold run_events. by rewrite H, drop_app_length. Qed.

Lemma main_exit env w code w1 :
  main_body env w = (Exited code, w1) → main env w = (Exited code, w1).
Proof. intros H. unfold main, try_catch. by rewrite H. Qed.

Lemma filter_api_none events :
  Forall (λ e, ¬ is_api_call e) events → filter is_api_call events = [].
Proof.
  induction 1 as [|e events He _ IH]; [done|]. by rewrite filter_cons_False.
Qed.

(** Steps 6 and 7 stop the run when the validator reports errors or the
    run is a dry run; they only report. *)
Lemma validate_step_stops env p w :
  validate (newHtml p) ≠ [] ∨ DRY_RUN env = true →
  ∃ events,
    validate_step env p w
    = (Exited (if DRY_RUN env then 0 else 1)%Z, mkWorld (fs w) (trace w ++ events))
    ∧ Forall (λ e, ¬ is_fs_event e ∧ ¬ is_api_call e) events.
Proof.
  intros H. unfold validate_step. unfold_M. unfold push.
  destruct (validate (newHtml p)) as [|e es] eqn:Hv; simpl.
  - destruct H as [?| ->]; [done|]. exists []. simpl. rewrite app_nil_r.
    split; [by destruct w|done].
  - exists [EValidationErrors (e :: es)]. split.
    + by destruct (DRY_RUN env).
    + repeat constructor; by intros [].
Qed.

(** A run that does not get past validation, by cases. *)
Lemma main_stops env w :
  ¬ passes_validation env w →
  ∃ code events,
    main env w = (Exited code, mkWorld (fs w) (trace w ++ events))
    ∧ Forall (λ e, ¬ is_fs_event e) events
    ∧ (length (filter is_api_call events) ≤ 1)%nat
    ∧ (code = 0%Z ↔ DRY_RUN env = true ∧ ∃ p w1, prepare env w = (Return p, w1)).
Proof.
  intros Hstop.
  destruct (prepare_cases env w) as [[Hp _]|(req & idx & _ & [[Hp _]|(m & patched & _ & _ & Hp)])].
  - exists 1%Z, []. rewrite app_nil_r. split_and!.
    + rewrite (main_body_not_prepared _ _ _ _ Hp). by destruct w.
    + done.
    + simpl. lia.
    + split; [done|]. intros [_ (p & w1 & Hp')]. congruence.
  - exists 1%Z, [EApiCall req]. split_and!.
    + by rewrite (main_body_not_prepared _ _ _ _ Hp).
    + repeat constructor. by intros [].
    + done.
    + split; [done|]. intros [_ (p & w1 & Hp')]. congruence.
  - set (p := mkPrepared _ _ _) in Hp. set (w1 := mkWorld _ _) in Hp.
    assert (validate (newHtml p) ≠ [] ∨ DRY_RUN env = true) as Hwhy.
    { destruct (decide (validate (newHtml p) = [])) as [Hv|]; [|by left].
      destruct (DRY_RUN env) eqn:Hd; [by right|]. destruct Hstop.
      by exists p, w1. }
    destruct (validate_step_stops env p w1 Hwhy) as (events & Hvs & Hev).
    exists (if DRY_RUN env then 0 else 1)%Z, (EApiCall req :: events). split_and!.
    + apply main_exit. rewrite (main_body_prepared _ _ _ _ Hp).
      unfold mbind, M_bind, bind. rewrite Hvs. simpl.
      by rewrite <- (assoc_L (++)).
    + constructor; [by intros []|]. eapply Forall_impl; [exact Hev|]. by intros ? [].
    + rewrite filter_cons_True by done. simpl.
      rewrite filter_api_none; [done|].
      eapply Forall_impl; [exact Hev|]. by intros ? [].
    + destruct (DRY_RUN env); split; try done; [by eauto|by intros []].
Qed.

(** X22. Nothing is written before validation passes: a run in which steps
    1 to 5 fail, the validator reports an error, or the dry-run flag is
    set makes no file-system call, leaves every file as it was, and ends
    by [process.exit]. *)
Theorem writes_only_after_validation env w :
  ¬ passes_validation env w →
  fs (main env w).2 = fs w
  ∧ Forall (λ e, ¬ is_fs_event e) (run_events env w)
  ∧ ∃ code, (main env w).1 = Exited code.
Proof.
  intros (code & events & Hm & Hev & _)%main_stops. rewrite (run_events_app _ _ events).
  - rewrite Hm. split_and!; [done|done|by exists code].
  - by rewrite Hm.
Qed.

Lemma writes_only_after_validation_witness :
  fs (main (env_example false (lit "MAJOR")) (world_example doc_abc)).2
  = fs (world_example doc_abc).
Proof.
  apply writes_only_after_validation.
  intros (p & w1 & Hp & Hv & _). vm_compute in Hp. injection Hp as <- <-.
  vm_compute in Hv. discriminate Hv.
Defined.

(** X23. A dry run never writes: whatever the inputs and the proposal, it
    makes no file-system call and leaves every file as it was; it exits
    with code 0 exactly when steps 1 to 5 succeed, validation errors or
    not. *)
Theorem dry_run_writes_nothing env w :
  DRY_RUN env = true →
  fs (main env w).2 = fs w
  ∧ Forall (λ e, ¬ is_fs_event e) (run_events env w)
  ∧ ((main env w).1 = Exited 0 ↔ ∃ p w1, prepare env w = (Return p, w1)).
Proof.
  intros Hdry.
  assert (¬ passes_validation env w) as Hstop
    by (intros (p & w1 & _ & _ & ?); congruence).
  destruct (main_stops env w Hstop) as (code & events & Hm & Hev & _ & Hcode).
  rewrite (run_events_app _ _ events) by (by rewrite Hm). rewrite Hm. simpl.
  split_and!; [done|done|]. split.
  - intros [= ->]. by apply Hcode.
  - intros Hp. f_equal. by apply Hcode.
Qed.

Lemma dry_run_writes_nothing_witness :
  fs (main (env_example true (lit "MAJOR")) (world_example doc_full)).2
  = fs (world_example doc_full).
Proof. apply dry_run_writes_nothing. reflexivity. Defined.

(** X24. Without a proposal that applies, because the service fails, sends
    no tool input, or sends changes that do not resolve in the live
    document, the run exits with code 1 after at most the call to the
    service: no validation report, no file-system call, every file as
    it was. *)
Theorem no_applicable_proposal_stops env w :
  (∀ req m indexHtml,
     proposal env req = Some m → fs w !! FILES_index env = Some indexHtml →
     ∃ e, applySectionChanges indexHtml (sectionChanges m) = Err e) →
  (main env w).1 = Exited 1
  ∧ fs (main env w).2 = fs w
  ∧ (run_events env w = [] ∨ ∃ req, run_events env w = [EApiCall req]).
Proof.
  intros Hnone.
  destruct (prepare_cases env w)
    as [[Hp _]|(req & idx & Hidx & [[Hp _]|(m & patched & Hprop & Happ & _)])].
  - rewrite (run_events_app _ _ []);
      rewrite (main_body_not_prepared _ _ _ _ Hp); [by eauto|by rewrite app_nil_r].
  - rewrite (run_events_app _ _ [EApiCall req]);
      rewrite (main_body_not_prepared _ _ _ _ Hp); [by eauto|done].
  - destruct (Hnone _ _ _ Hprop Hidx) as [e He]. congruence.
Qed.

Lemma no_applicable_proposal_stops_witness :
  (main (mkEnv false (lit "/game") (Some (lit "key")) None (λ _, ApiRejects)
               (λ _, false) (λ _, false))
        (world_example doc_full)).1 = Exited 1.
Proof.
  apply no_applicable_proposal_stops. intros req m idx Hprop. discriminate Hprop.
Defined.

Lemma index_not_bak env : FILES_index env ≠ bakPath env.
Proof.
  unfold bakPath. intros H%(f_equal length). rewrite length_app in H.
  simpl in H. lia.
Qed.

Lemma index_not_reference env : FILES_index env ≠ FILES_reference env.
Proof.
  unfold FILES_index, FILES_reference, in_root. intros H%(inj (app _)). discriminate H.
Qed.

Lemma reference_not_bak env : FILES_reference env ≠ bakPath env.
Proof.
  unfold bakPath, FILES_index, FILES_reference, in_root.
  rewrite <- !(assoc_L (++)). intros H%(inj (app _)). discriminate H.
Qed.

Lemma archive_not_index env v : archivePath env v ≠ FILES_index env.
Proof. pose proof (archivePath_fresh env v) as H. set_solver. Qed.

Lemma archive_not_reference env v : archivePath env v ≠ FILES_reference env.
Proof. pose proof (archivePath_fresh env v) as H. set_solver. Qed.

Lemma archive_not_bak env v : archivePath env v ≠ bakPath env.
Proof. pose proof (archivePath_fresh env v) as H. set_solver. Qed.

(** The monad, one step at a time. *)
Lemma seq_Return {A B} (m : M A) (k : M B) w a w' :
  m w = (Return a, w') → (m ;; k) w = k w'.
Proof. intros H. unfold mbind, M_bind, bind. by rewrite H. Qed.

Lemma seq_Thrown {A B} (m : M A) (k : M B) w w' :
  m w = (Thrown, w') → (m ;; k) w = (Thrown, w').
Proof. intros H. unfold mbind, M_bind, bind. by rewrite H. Qed.

Lemma seq_Exited {A B} (m : M A) (k : M B) w code w' :
  m w = (Exited code, w') → (m ;; k) w = (Exited code, w').
Proof. intros H. unfold mbind, M_bind, bind. by rewrite H. Qed.

Lemma try_catch_Return {A} (m h : M A) w a w' :
  m w = (Return a, w') → try_catch m h w = (Return a, w').
Proof. intros H. unfold try_catch. by rewrite H. Qed.

Lemma try_catch_Thrown {A} (m h : M A) w w' :
  m w = (Thrown, w') → try_catch m h w = h w'.
Proof. intros H. unfold try_catch. by rewrite H. Qed.

Lemma copyFileSync_ok env src dst w data :
  io_fails env (CopyFile src dst) = false → fs w !! src = Some data →
  copyFileSync env src dst w
  = (Return tt, mkWorld (<[dst := data]> (fs w))
                        (trace w ++ [EFs (CopyFile src dst) true])).
Proof. intros Hio Hsrc. unfold copyFileSync, mutate_fs. by rewrite Hio, Hsrc. Qed.

Lemma writeFileSync_ok env path data w :
  io_fails env (WriteFile path data) = false →
  writeFileSync env path data w
  = (Return tt, mkWorld (<[path := data]> (fs w))
                        (trace w ++ [EFs (WriteFile path data) true])).
Proof. intros Hio. unfold writeFileSync, mutate_fs. by rewrite Hio. Qed.

Lemma writeFileSync_fails env path data w :
  io_fails env (WriteFile path data) = true →
  writeFileSync env path data w
  = (Thrown, mkWorld (fs w) (trace w ++ [EFs (WriteFile path data) false])).
Proof. intros Hio. unfold writeFileSync, mutate_fs. by rewrite Hio. Qed.

Lemma unlinkSync_ok env path w data :
  io_fails env (Unlink path) = false → fs w !! path = Some data →
  unlinkSync env path w
  = (Return tt, mkWorld (delete path (fs w)) (trace w ++ [EFs (Unlink path) true])).
Proof. intros Hio Hp. unfold unlinkSync, mutate_fs. by rewrite Hio, Hp. Qed.

(** Step 8 when the copy does not fail. *)
Lemma archive_step_ok env p w indexHtml :
  fs w !! FILES_index env = Some indexHtml →
  io_fails env (CopyFile (FILES_index env) (archivePath env (currentVersion p))) = false →
  let major := string_eqb (versionType (mutation p)) (lit "MAJOR") in
  let archive := archivePath env (currentVersion p) in
  archive_step env p w
  = (Return tt,
     mkWorld (if major then <[archive := indexHtml]> (fs w) else fs w)
             (trace w ++ if major then [EFs (CopyFile (FILES_index env) archive) true]
                         else [])).
Proof.
  intros Hidx Hio major archive. unfold archive_step, when. fold major.
  destruct major.
  - by rewrite (copyFileSync_ok _ _ _ _ indexHtml).
  - unfold ret. rewrite app_nil_r. by destruct w.
Qed.

Lemma archive_step_index env p w indexHtml :
  fs w !! FILES_index env = Some indexHtml →
  (if string_eqb (versionType (mutation p)) (lit "MAJOR")
   then <[archivePath env (currentVersion p) := indexHtml]> (fs w) else fs w)
  !! FILES_index env = Some indexHtml.
Proof.
  intros Hidx. destruct (string_eqb _ _); [|done].
  rewrite lookup_insert_ne; [done|apply archive_not_index].
Qed.

(** Step 10: the [git add], then the [git commit] unless the first
    command fails; the handler swallows either failure. *)
Lemma gitCommit_run env version summary w :
  let add := lit "git add index.html GAME-REFERENCE.md" in
  let commit := lit "git commit -m "
                  ++ QUOTE :: escape_quotes (lit "v" ++ version ++ lit ": " ++ summary)
                  ++ [QUOTE] in
  gitCommit env version summary w
  = (Return tt,
     mkWorld (fs w)
       (trace w
          ++ EExec add (negb (exec_fails env add))
          :: (if exec_fails env add then []
              else [EExec commit (negb (exec_fails env commit))]))).
Proof.
  intros add commit.
  unfold gitCommit, try_catch, execSync, mbind, M_bind, bind, ret, push.
  fold add. fold commit.
  destruct (exec_fails env add); simpl; [done|].
  destruct (exec_fails env commit); simpl; by rewrite <- (assoc_L (++)).
Qed.

(** X25. When validation passes in normal mode and no file-system call
    fails, the run completes with exactly these calls in this order: the
    archive copy (for [MAJOR] only), the backup copy, the write of the
    live document, the write of the reference document, the removal of
    the backup, the shell command [git add index.html GAME-REFERENCE.md]
    and, unless that one fails, the shell command [git commit -m] with
    the text [v<version>: <summary>] between double quotes, in which each
    double quote of the text has a backslash put before it and every
    other character is as it was.  (The shell reads that text: a [$], a
    backquote or a backslash in the summary is interpreted by it, so the
    message git records is what the shell makes of the text, not always
    the text itself.)  At the end the live document is the new document,
    the reference document is the one of the proposal, and no backup file
    is left, even if one existed before; a git command that fails does
    not change this. *)
Theorem successful_run env w p w1 indexHtml :
  prepare env w = (Return p, w1) →
  validate (newHtml p) = [] → DRY_RUN env = false →
  fs w !! FILES_index env = Some indexHtml →
  (∀ op, io_fails env op = false) →
  let major := string_eqb (versionType (mutation p)) (lit "MAJOR") in
  let archive := archivePath env (currentVersion p) in
  let text := lit "v" ++ versionNumber (mutation p) ++ lit ": " ++ summary (mutation p) in
  let add := lit "git add index.html GAME-REFERENCE.md" in
  let commit := lit "git commit -m " ++ QUOTE :: escape_quotes text ++ [QUOTE] in
  main env w
  = (Return tt,
     mkWorld
       (delete (bakPath env)
          (<[FILES_reference env := referenceDoc (mutation p)]>
             (<[FILES_index env := newHtml p]>
                (<[bakPath env := indexHtml]>
                   (if major then <[archive := indexHtml]> (fs w) else fs w)))))
       (trace w1
          ++ (if major then [EFs (CopyFile (FILES_index env) archive) true] else [])
          ++ [ EFs (CopyFile (FILES_index env) (bakPath env)) true;
               EFs (WriteFile (FILES_index env) (newHtml p)) true;
               EFs (WriteFile (FILES_reference env) (referenceDoc (mutation p))) true;
               EFs (Unlink (bakPath env)) true;
               EExec add (negb (exec_fails env add)) ]
          ++ (if exec_fails env add then []
              else [EExec commit (negb (exec_fails env commit))]))).
Proof.
  intros Hp Hv Hdry Hidx Hio major archive text add commit.
  destruct (prepare_effects _ _ _ _ Hp) as [Hfs _]. rewrite <- Hfs in Hidx |- *.
  pose proof (index_not_bak env) as Hib. pose proof (index_not_reference env) as Hir.
  pose proof (reference_not_bak env) as Hrb.
  unfold main. erewrite try_catch_Return; [done|].
  rewrite (main_body_prepared _ _ _ _ Hp).
  erewrite seq_Return by (by apply validate_step_pass).
  unfold persist.
  erewrite seq_Return by (by apply (archive_step_ok env p w1 indexHtml)).
  fold major archive. unfold write_step.
  pose proof (archive_step_index env p w1 indexHtml Hidx) as Hidx'.
  erewrite seq_Return.
  2:{ erewrite seq_Return by (by apply (copyFileSync_ok _ _ _ _ indexHtml)).
      erewrite seq_Return.
      2:{ apply try_catch_Return.
          erewrite seq_Return by (by apply writeFileSync_ok).
          by apply writeFileSync_ok. }
      apply (unlinkSync_ok _ _ _ indexHtml); [done|]. simpl.
      rewrite lookup_insert_ne by done. rewrite lookup_insert_ne by done.
      by rewrite lookup_insert_eq. }
  rewrite gitCommit_run. fold text add commit. simpl.
  by rewrite <- !(assoc_L (++)).
Qed.

Lemma successful_run_witness :
  (main (env_example false (lit "MINOR")) (world_example doc_full)).1 = Return tt.
Proof.
  destruct (prepare (env_example false (lit "MINOR")) (world_example doc_full))
    as [[p|code|] w1] eqn:Hp.
  - pose proof Hp as Hp'. vm_compute in Hp'. injection Hp' as <- <-.
    rewrite (successful_run _ _ _ _ doc_full Hp); [reflexivity| | | |].
    + vm_compute. reflexivity.
    + reflexivity.
    + vm_compute. reflexivity.
    + reflexivity.
  - vm_compute in Hp. discriminate Hp.
  - vm_compute in Hp. discriminate Hp.
Defined.

(** X26. When one of the two writes fails (and the copies do not), the
    live document is restored from the backup: the run exits with code 1,
    [index.html] holds its content from before the run, the reference
    document is as it was (a call that fails is modelled as leaving the
    files alone), no git command is run, and the backup file is left in
    place. *)
Theorem failed_write_rolls_back env w p w1 indexHtml :
  prepare env w = (Return p, w1) →
  validate (newHtml p) = [] → DRY_RUN env = false →
  fs w !! FILES_index env = Some indexHtml →
  (∀ src dst, io_fails env (CopyFile src dst) = false) →
  io_fails env (WriteFile (FILES_index env) (newHtml p)) = true
  ∨ io_fails env (WriteFile (FILES_reference env) (referenceDoc (mutation p))) = true →
  (main env w).1 = Exited 1
  ∧ fs (main env w).2 !! FILES_index env = Some indexHtml
  ∧ fs (main env w).2 !! FILES_reference env = fs w !! FILES_reference env
  ∧ fs (main env w).2 !! bakPath env = Some indexHtml
  ∧ ∀ command ok, EExec command ok ∉ run_events env w.
Proof.
  intros Hp Hv Hdry Hidx Hcopy Hfail.
  destruct (prepare_Return _ _ _ _ Hp) as (_ & _ & req & _ & _ & _ & _ & Hfs & Htr).
  rewrite <- Hfs in Hidx |- *.
  pose proof (index_not_bak env) as Hib. pose proof (index_not_reference env) as Hir.
  pose proof (reference_not_bak env) as Hrb.
  pose proof (archive_not_reference env (currentVersion p)) as Har.
  pose proof (archive_step_index env p w1 indexHtml Hidx) as Hidx'.
  set (fs0 := if string_eqb (versionType (mutation p)) (lit "MAJOR")
              then <[archivePath env (currentVersion p) := indexHtml]> (fs w1)
              else fs w1) in *.
  assert (fs0 !! FILES_reference env = fs w1 !! FILES_reference env) as Href.
  { unfold fs0. destruct (string_eqb _ _); [|done]. by rewrite lookup_insert_ne. }
  assert (∃ fs' events,
    main env w = (Exited 1, mkWorld fs' (trace w ++ EApiCall req :: events))
    ∧ fs' !! FILES_index env = Some indexHtml
    ∧ fs' !! FILES_reference env = fs0 !! FILES_reference env
    ∧ fs' !! bakPath env = Some indexHtml
    ∧ ∀ command ok, EExec command ok ∉ EApiCall req :: events) as Hmain.
  { unfold main.
    destruct (io_fails env (WriteFile (FILES_index env) (newHtml p))) eqn:Hw1.
    - eexists _, _. split.
      + apply main_exit. rewrite (main_body_prepared _ _ _ _ Hp).
        erewrite seq_Return by (by apply validate_step_pass).
        unfold persist.
        erewrite seq_Return by (by apply (archive_step_ok env p w1 indexHtml)).
        apply seq_Exited. unfold write_step.
        erewrite seq_Return by (by apply (copyFileSync_ok _ _ _ _ indexHtml)).
        apply seq_Exited. erewrite try_catch_Thrown.
        2:{ apply seq_Thrown. by apply writeFileSync_fails. }
        erewrite seq_Return.
        2:{ apply (copyFileSync_ok _ _ _ _ indexHtml); [done|]. simpl.
            by rewrite lookup_insert_eq. }
        unfold process_exit. simpl. fold fs0. rewrite Htr.
        rewrite <- !(assoc_L (++)). simpl. reflexivity.
      + split_and!.
        * by rewrite lookup_insert_eq.
        * by rewrite !lookup_insert_ne by done.
        * rewrite lookup_insert_ne by done. by rewrite lookup_insert_eq.
        * intros command ok Hin. destruct (string_eqb _ _); simpl in Hin;
            repeat (apply elem_of_cons in Hin as [Hin|Hin]; [discriminate Hin|]);
            by apply elem_of_nil in Hin.
    - destruct Hfail as [?|Hw2]; [done|]. eexists _, _. split.
      + apply main_exit. rewrite (main_body_prepared _ _ _ _ Hp).
        erewrite seq_Return by (by apply validate_step_pass).
        unfold persist.
        erewrite seq_Return by (by apply (archive_step_ok env p w1 indexHtml)).
        apply seq_Exited. unfold write_step.
        erewrite seq_Return by (by apply (copyFileSync_ok _ _ _ _ indexHtml)).
        apply seq_Exited. erewrite try_catch_Thrown.
        2:{ erewrite seq_Return by (by apply writeFileSync_ok).
            by apply writeFileSync_fails. }
        erewrite seq_Return.
        2:{ apply (copyFileSync_ok _ _ _ _ indexHtml); [done|]. simpl.
            rewrite lookup_insert_ne by done. by rewrite lookup_insert_eq. }
        unfold process_exit. simpl. fold fs0. rewrite Htr.
        rewrite <- !(assoc_L (++)). simpl. reflexivity.
      + split_and!.
        * by rewrite lookup_insert_eq.
        * by rewrite !lookup_insert_ne by done.
        * rewrite !lookup_insert_ne by done. by rewrite lookup_insert_eq.
        * intros command ok Hin. destruct (string_eqb _ _); simpl in Hin;
            repeat (apply elem_of_cons in Hin as [Hin|Hin]; [discriminate Hin|]);
            by apply elem_of_nil in Hin. }
  destruct Hmain as (fs' & events & Hm & H1 & H2 & H3 & H4).
  rewrite (run_events_app _ _ (EApiCall req :: events)) by (by rewrite Hm).
  rewrite Hm. simpl. by rewrite <- Href.
Qed.

Lemma failed_write_rolls_back_witness :
  (main env_write_fails (world_example doc_full)).1 = Exited 1
  ∧ fs (main env_write_fails (world_example doc_full)).2 !! lit "/game/index.html"
    = Some doc_full.
Proof.
  destruct (prepare env_write_fails (world_example doc_full)) as [[p|code|] w1] eqn:Hp.
  - pose proof Hp as Hp'. vm_compute in Hp'. injection Hp' as <- <-.
    destruct (failed_write_rolls_back _ _ _ _ doc_full Hp) as (H1 & H2 & _).
    + vm_compute. reflexivity.
    + reflexivity.
    + vm_compute. reflexivity.
    + reflexivity.
    + left. reflexivity.
    + split; [exact H1|exact H2].
  - vm_compute in Hp. discriminate Hp.
  - vm_compute in Hp. discriminate Hp.
Defined.

(** *** What a run touches *)

Lemma passes_validation_dec env w : passes_validation env w ∨ ¬ passes_validation env w.
Proof.
  unfold passes_validation.
  destruct (prepare env w) as [[p|code|] w1] eqn:Hp;
    [|right; by intros (? & ? & ? & _)..].
  destruct (validate (newHtml p)) eqn:Hv; [|right; intros (? & ? & ? & ? & _); congruence].
  destruct (DRY_RUN env) eqn:Hd; [right; intros (? & ? & ? & ? & ?); congruence|].
  left. exists p, w1. split_and!; [done|congruence|done].
Qed.

Lemma archive_step_confined env p :
  confined [archivePath env (currentVersion p)] (archive_step env p).
Proof.
  unfold archive_step. apply confined_when, confined_copyFileSync, list_elem_of_singleton.
  reflexivity.
Qed.

Section Emits.
Context (Q : Event → Prop).

Lemma emits_ret {A} (a : A) : emits Q (mret a : M A).
Proof. intros w r w' [= <- <-]. exists []. by rewrite app_nil_r. Qed.

Lemma emits_exit {A} code : emits Q (process_exit code : M A).
Proof. intros w r w' [= <- <-]. exists []. by rewrite app_nil_r. Qed.

Lemma emits_emit e : Q e → emits Q (emit e).
Proof. intros He w r w' [= <- <-]. exists [e]. split; [done|]. by constructor. Qed.

Lemma emits_bind {A B} (m : M A) (k : A → M B) :
  emits Q m → (∀ a, emits Q (k a)) → emits Q (m ≫= k).
Proof.
  intros Hm Hk w r w'. unfold mbind, M_bind, bind.
  destruct (m w) as [[a|code|] w1] eqn:Hmw; destruct (Hm _ _ _ Hmw) as [ev1 [Ht1 Ha1]].
  - intros Hkw. destruct (Hk _ _ _ _ Hkw) as [ev2 [Ht2 Ha2]].
    exists (ev1 ++ ev2). rewrite Ht2, Ht1, (assoc_L (++)). split; [done|].
    by apply Forall_app.
  - intros [= <- <-]. eauto.
  - intros [= <- <-]. eauto.
Qed.

Lemma emits_try_catch {A} (m handler : M A) :
  emits Q m → emits Q handler → emits Q (try_catch m handler).
Proof.
  intros Hm Hh w r w'. unfold try_catch.
  destruct (m w) as [[a|code|] w1] eqn:Hmw; destruct (Hm _ _ _ Hmw) as [ev1 [Ht1 Ha1]].
  - intros [= <- <-]. eauto.
  - intros [= <- <-]. eauto.
  - intros Hhw. destruct (Hh _ _ _ Hhw) as [ev2 [Ht2 Ha2]].
    exists (ev1 ++ ev2). rewrite Ht2, Ht1, (assoc_L (++)). split; [done|].
    by apply Forall_app.
Qed.

Lemma emits_when b (m : M unit) : emits Q m → emits Q (when b m).
Proof. destruct b; [done|]. intros _. apply emits_ret. Qed.

Lemma emits_execSync env command :
  (∀ ok, Q (EExec command ok)) → emits Q (execSync env command).
Proof.
  intros Hq w r w'. unfold execSync.
  destruct (exec_fails env command); intros [= <- <-]; simpl;
    eexists [_]; (split; [done|]); by constructor.
Qed.

Lemma emits_mutate_fs env op change :
  (∀ ok, Q (EFs op ok)) → emits Q (mutate_fs env op change).
Proof.
  intros Hop w r w'. unfold mutate_fs.
  destruct (if io_fails env op then None else change (fs w)) as [files'|];
    intros [= <- <-]; simpl; eexists [_]; (split; [done|]); by constructor.
Qed.
End Emits.

(** Steps 8 to 10 never call the service. *)
Lemma persist_no_api env p : emits (λ e, ¬ is_api_call e) (persist env p).
Proof.
  unfold persist, archive_step, write_step, gitCommit, copyFileSync, writeFileSync,
    unlinkSync.
  repeat first
    [ apply emits_bind; [|intros ?]
    | apply emits_try_catch
    | apply emits_when
    | apply emits_exit
    | apply emits_ret
    | apply emits_mutate_fs; intros ?; simpl; tauto
    | apply emits_execSync; intros ?; simpl; tauto ].
Qed.

(** X27. The file-system calls of a run leave every file alone except
    [index.html], [GAME-REFERENCE.md], the backup [index.html.bak] and
    the archive copies: in particular the rules document and the
    submissions are never modified, created or deleted, however the run
    ends.  (What git does on the commit is not part of the file map.) *)
Theorem run_confined env w path :
  path ∉ [FILES_index env; FILES_reference env; bakPath env] →
  (∀ v, path ≠ archivePath env v) →
  fs (main env w).2 !! path = fs w !! path.
Proof.
  intros Hpath Harch.
  destruct (passes_validation_dec env w) as [(p & w1 & Hp & Hv & Hd)|Hstop].
  - rewrite (main_persist _ _ _ _ Hp Hv Hd), persist_unfold.
    destruct (prepare_Return _ _ _ _ Hp) as (_ & _ & req & _ & _ & _ & _ & Hfs & _).
    rewrite <- Hfs.
    destruct (archive_step env p w1) as [[[]|code|] w2] eqn:Ha;
      destruct (archive_step_confined _ _ _ _ _ Ha) as [_ Hf2];
      specialize (Hf2 path); rewrite <- Hf2
        by (rewrite list_elem_of_singleton; apply Harch); try done.
    destruct ((write_step env p ;;
               gitCommit env (versionNumber (mutation p)) (summary (mutation p))) w2)
      as [r w3] eqn:Hw.
    by destruct (write_and_commit_confined _ _ _ _ _ Hw) as [_ ->].
  - destruct (main_stops _ _ Hstop) as (code & events & -> & _). done.
Qed.

Lemma run_confined_witness :
  fs (main (env_example false (lit "MAJOR")) (world_example doc_full)).2
    !! lit "/game/GAME-DNA.md"
  = fs (world_example doc_full) !! lit "/game/GAME-DNA.md".
Proof.
  apply run_confined.
  - apply (bool_decide_unpack _). vm_compute. exact I.
  - intros v. unfold archivePath, in_root. simpl. intros H. discriminate H.
Defined.

(** X28. A run calls the service at most once, whatever happens
    afterwards: no failure of a write, of the rollback or of the commit
    leads to a second request. *)
Theorem at_most_one_service_call env w :
  (length (filter is_api_call (run_events env w)) ≤ 1)%nat.
Proof.
  destruct (passes_validation_dec env w) as [(p & w1 & Hp & Hv & Hd)|Hstop].
  - destruct (prepare_Return _ _ _ _ Hp) as (_ & _ & req & _ & _ & _ & _ & _ & Htr).
    destruct (persist env p w1) as [r w2] eqn:Hper.
    destruct (persist_no_api _ _ _ _ _ Hper) as (events & Ht2 & Hall).
    rewrite (run_events_app _ _ (EApiCall req :: events)).
    + rewrite filter_cons_True by done. simpl. by rewrite (filter_api_none _ Hall).
    + rewrite (main_persist _ _ _ _ Hp Hv Hd), Hper. simpl.
      rewrite Ht2, Htr, <- (assoc_L (++)). done.
  - destruct (main_stops _ _ Hstop) as (code & events & Hm & _ & Hone & _).
    rewrite (run_events_app _ _ events); [done|]. by rewrite Hm.
Qed.
